(** * render-latex: delimiter parsing and escape handling of [renderMath]

    A shallow embedding of [index.ts]: the escape-placeholder tables, the
    delimiter table with its compiled patterns, [parseDelimiters] (collect,
    sort, sweep, build) and [renderMath], followed by the properties the
    specification states about them.

    JavaScript strings are sequences of UTF-16 code units and every string
    operation of the source (indexing, [length], [substring], [replaceAll],
    regular expressions without the [u] flag) works on code units, so a
    string is a [list N] of code units here.  Offsets are [nat]; the
    comparator of [sort] is computed in [Z]. *)

From Stdlib Require Import String Ascii.
From Stdlib Require Import List NArith ZArith Arith Lia Bool.
From Stdlib Require Import Sorting.Sorted Sorting.Permutation.
Import ListNotations.

(** ** JavaScript strings *)

Definition jsstring := list N.

(** An ASCII literal as a JavaScript string. *)
Definition js (s : string) : jsstring :=
  map N_of_ascii (list_ascii_of_string s).
Arguments js s%_string.

Definition BACKSLASH : N := 92.
Definition DOLLAR : N := 36.
Definition NEWLINE : N := 10.
Definition QUOTE : N := 34.

Fixpoint startsWith (tok s : jsstring) : bool :=
  match tok, s with
  | [], _ => true
  | _ :: _, [] => false
  | a :: tok', b :: s' => (a =? b)%N && startsWith tok' s'
  end.

(** Offset of the first occurrence of [tok] in [s]. *)
Fixpoint indexOf (tok s : jsstring) : option nat :=
  if startsWith tok s then Some 0
  else match s with
       | [] => None
       | _ :: s' => option_map S (indexOf tok s')
       end.

(** [String.prototype.substring]: both indices are clamped to the length and
    swapped when out of order. *)
Definition substring (s : jsstring) (a b : nat) : jsstring :=
  let a' := Nat.min a (length s) in
  let b' := Nat.min b (length s) in
  let lo := Nat.min a' b' in
  let hi := Nat.max a' b' in
  firstn (hi - lo) (skipn lo s).

(** A global replace over a list of literal alternatives, as performed by
    [replaceAll(string, _)] and by [replace(/a|b/g, _)]: the scan goes left
    to right, at each offset the first alternative that matches there is
    taken, its image under [f] is emitted and the scan resumes after the
    match.  [skip] counts the code units of the current match that are still
    to be passed over. *)
Definition firstMatching (alts : list jsstring) (s : jsstring) : option jsstring :=
  find (fun alt => startsWith alt s) alts.

Fixpoint replaceScan (alts : list jsstring) (f : jsstring -> jsstring)
         (skip : nat) (s : jsstring) : jsstring :=
  match s with
  | [] => []
  | c :: s' =>
      match skip with
      | S k => replaceScan alts f k s'
      | 0 =>
          match firstMatching alts s with
          | Some alt =>
              match alt with
              | [] => f alt ++ c :: replaceScan alts f 0 s'
              | _ :: alt' => f alt ++ replaceScan alts f (length alt') s'
              end
          | None => c :: replaceScan alts f 0 s'
          end
      end
  end.

(** An empty alternative also matches at the end of the string. *)
Definition replaceGlobal (alts : list jsstring) (f : jsstring -> jsstring)
           (s : jsstring) : jsstring :=
  replaceScan alts f 0 s ++
  match firstMatching alts [] with
  | Some alt => f alt
  | None => []
  end.

(** [input.replaceAll(searchValue, replaceValue)] for two strings (no [$]
    pattern occurs in the replacement values of the source). *)
Definition replaceAll (input searchValue replaceValue : jsstring) : jsstring :=
  replaceGlobal [searchValue] (fun _ => replaceValue) input.

(** ** escapeRegex

    [string.replace(/[.*+?^${}()|[\]\\]/g, '\\$&')]: every character of the
    class is replaced by a backslash followed by itself. *)
Definition regexSpecials : jsstring := js ".*+?^${}()|[]\".

Definition escapeRegex (string : jsstring) : jsstring :=
  replaceGlobal (map (fun c => [c]) regexSpecials) (fun m => BACKSLASH :: m) string.

(** ** Placeholders and escape tables *)

(** The two placeholder literals of the source are four code units each:
    U+00F0 U+0153 U+00B0 U+20AC for the backslash and U+00F0 U+0153 U+00B0
    U+0192 for the dollar sign.  They share their first three code units. *)
Definition BACKSLASH_PLACEHOLDER : jsstring := [240; 339; 176; 8364]%N.
Definition DOLLAR_PLACEHOLDER : jsstring := [240; 339; 176; 402]%N.

(** The three [Record<string, string>] tables keep their insertion order,
    which [Object.keys] and [Object.values] expose. *)
Definition Table := list (jsstring * jsstring).

Definition jsstring_eqb (a b : jsstring) : bool :=
  (length a =? length b) && startsWith a b.

Fixpoint lookup (t : Table) (k : jsstring) : option jsstring :=
  match t with
  | [] => None
  | (k', v) :: t' => if jsstring_eqb k' k then Some v else lookup t' k
  end.

Definition escapes : Table :=
  [ ([BACKSLASH; BACKSLASH], BACKSLASH_PLACEHOLDER);
    ([BACKSLASH; DOLLAR], DOLLAR_PLACEHOLDER) ].

Definition unEscapes : Table :=
  [ (BACKSLASH_PLACEHOLDER, [BACKSLASH]);
    (DOLLAR_PLACEHOLDER, [DOLLAR]) ].

Definition mathUnEscapes : Table :=
  [ (BACKSLASH_PLACEHOLDER, [BACKSLASH; BACKSLASH]);
    (DOLLAR_PLACEHOLDER, [DOLLAR]) ].

Definition escapedSequences : list jsstring := map snd escapes.
Definition escapeSequences : list jsstring := map fst escapes.

(** ** Errors *)

Inductive Exn : Type :=
| EscapeSequenceNotFound (sequenceToReplace : jsstring)
| EngineException (payload : jsstring)
| TypeError.

Inductive Result (A : Type) : Type :=
| OK (a : A)
| Throw (e : Exn).
Arguments OK {A} a.
Arguments Throw {A} e.

(** ** Properties inherited from Object.prototype

    [escapes] is a plain object, so [escapes[key]] is also defined for the
    property names of [Object.prototype].  The value found there is not a
    string, and [replaceAll] treats it as follows.  A value that is not
    callable is converted to a string.  A function is called once per
    match, with [this] undefined and the matched text as first argument,
    and its result is converted to a string. *)
Inductive Inherited : Type :=
| inherited_proto           (* the prototype object itself *)
| inherited_constructor     (* [Object]: wraps the match, which converts back *)
| inherited_toString        (* describes the undefined [this] *)
| inherited_isPrototypeOf   (* [false] for an argument that is no object *)
| inherited_needsThis.      (* converts [this] to an object first: throws *)

Definition objectPrototype : list (jsstring * Inherited) :=
  [ (js "constructor", inherited_constructor);
    (js "__defineGetter__", inherited_needsThis);
    (js "__defineSetter__", inherited_needsThis);
    (js "hasOwnProperty", inherited_needsThis);
    (js "__lookupGetter__", inherited_needsThis);
    (js "__lookupSetter__", inherited_needsThis);
    (js "isPrototypeOf", inherited_isPrototypeOf);
    (js "propertyIsEnumerable", inherited_needsThis);
    (js "toString", inherited_toString);
    (js "valueOf", inherited_needsThis);
    (js "__proto__", inherited_proto);
    (js "toLocaleString", inherited_needsThis) ].

Definition objectPrototypeKeys : list jsstring := map fst objectPrototype.

Fixpoint lookupInherited (l : list (jsstring * Inherited)) (k : jsstring)
  : option Inherited :=
  match l with
  | [] => None
  | (k', v) :: l' => if jsstring_eqb k' k then Some v else lookupInherited l' k
  end.

(** [input.replaceAll(searchValue, value)] for an inherited [value]. *)
Definition replaceAllInherited (input searchValue : jsstring) (value : Inherited)
  : Result jsstring :=
  match value with
  | inherited_proto => OK (replaceAll input searchValue (js "[object Object]"))
  | inherited_constructor => OK (replaceAll input searchValue searchValue)
  | inherited_toString => OK (replaceAll input searchValue (js "[object Undefined]"))
  | inherited_isPrototypeOf => OK (replaceAll input searchValue (js "false"))
  | inherited_needsThis =>
      match indexOf searchValue input with
      | Some _ => Throw TypeError
      | None => OK input
      end
  end.

(** ** Escaping helpers *)

Definition replacePredefinedEscapeSequences (input sequenceToReplace : jsstring)
  : Result jsstring :=
  match lookup escapes sequenceToReplace with
  | Some replacement => OK (replaceAll input sequenceToReplace replacement)
  | None =>
      match lookupInherited objectPrototype sequenceToReplace with
      | Some value => replaceAllInherited input sequenceToReplace value
      | None => Throw (EscapeSequenceNotFound sequenceToReplace)
      end
  end.

(** The replacer [(match) => table[match]].  The pattern it is used with
    matches nothing but the keys of the table; a missing key would be
    rendered as the text of [undefined]. *)
Definition replacer (t : Table) (m : jsstring) : jsstring :=
  match lookup t m with
  | Some v => v
  | None => js "undefined"
  end.

(** [unescapeAllPlaceholdersRegex] is the alternation of the two
    placeholders, in the order of [escapedSequences]. *)
Definition unescapeCharacters (input : jsstring) : jsstring :=
  replaceGlobal escapedSequences (replacer unEscapes) input.

Definition revertEscapedCharacters (input : jsstring) : jsstring :=
  replaceGlobal escapedSequences (replacer mathUnEscapes) input.

Definition LATEX_BREAK : jsstring :=
  js " " ++ [BACKSLASH; BACKSLASH; BACKSLASH; BACKSLASH] ++ js " ".

Definition convertNewlinesToLatexBreaks (input : jsstring) : jsstring :=
  replaceGlobal [[NEWLINE]] (fun _ => LATEX_BREAK) input.

(** ** Delimiters *)

Inductive DelimiterType := display_type | inline_type.

Record Delimiter := {
  d_start : jsstring;
  d_end : jsstring;
  d_type : DelimiterType;
  d_customRegex : bool   (* whether the entry carries a [customRegex] *)
}.

Definition delimiters : list Delimiter :=
  [ {| d_start := js "$$"; d_end := js "$$";
       d_type := display_type; d_customRegex := false |};
    {| d_start := js "$"; d_end := js "$";
       d_type := inline_type; d_customRegex := false |};
    {| d_start := js "\["; d_end := js "\]";
       d_type := display_type; d_customRegex := false |};
    {| d_start := js "\("; d_end := js "\)";
       d_type := inline_type; d_customRegex := false |};
    {| d_start := js "\begin{align*}"; d_end := js "\end{align*}";
       d_type := display_type; d_customRegex := true |};
    {| d_start := js "\begin{align}"; d_end := js "\end{align}";
       d_type := display_type; d_customRegex := true |} ].

(** *** The compiled pattern

    Every [compiledRegex] has the shape [(?:S)([\s\S]*?)(?:E)] where [S] and
    [E] match the start and end token literally (the generic entries escape
    the tokens with [escapeRegex]; the two custom patterns spell out the same
    literals as their [start] and [end]).  An attempt at one offset succeeds
    when the text there begins with [S] and [E] occurs at or after the end of
    [S]; the lazy body takes the first such occurrence. *)

Record RegExpExecArray := {
  index : nat;          (* match.index *)
  match0 : jsstring;    (* match[0], the full match *)
  match1 : jsstring     (* match[1], the captured body *)
}.

(** One attempt, [s] being the input from the attempted offset on. *)
Definition matchHere (d : Delimiter) (s : jsstring) : option (jsstring * jsstring) :=
  if startsWith (d_start d) s then
    let body := skipn (length (d_start d)) s in
    match indexOf (d_end d) body with
    | Some k =>
        Some (firstn (length (d_start d) + k + length (d_end d)) s, firstn k body)
    | None => None
    end
  else None.

(** The attempts proceed from offset [pos] to the end of the input. *)
Fixpoint search (d : Delimiter) (s : jsstring) (pos : nat) : option RegExpExecArray :=
  match matchHere d s with
  | Some (m0, m1) => Some {| index := pos; match0 := m0; match1 := m1 |}
  | None =>
      match s with
      | [] => None
      | _ :: s' => search d s' (S pos)
      end
  end.

(** [delimiterRegex.exec(input)] with [delimiterRegex.lastIndex = lastIndex]. *)
Definition exec (d : Delimiter) (input : jsstring) (lastIndex : nat)
  : option RegExpExecArray :=
  if length input <? lastIndex then None
  else search d (skipn lastIndex input) lastIndex.

(** ** parseDelimiters *)

Record Match := {
  m_display : bool;
  m_content : jsstring;
  m_start : nat;
  m_end : nat
}.

Inductive SegmentType := text | math.

Record ParsedSegment := {
  type : SegmentType;
  display : bool;
  content : jsstring
}.

Definition isDisplay (d : Delimiter) : bool :=
  match d_type d with display_type => true | inline_type => false end.

(** The [while ((match = delimiterRegex.exec(input)) !== null)] loop.  After
    a match the pattern's [lastIndex] is the end of that match.  [None] is
    fuel exhaustion. *)
Fixpoint execLoop (fuel : nat) (d : Delimiter) (input : jsstring) (lastIndex : nat)
  : option (list Match) :=
  match fuel with
  | 0 => None
  | S fuel' =>
      match exec d input lastIndex with
      | None => Some []
      | Some m =>
          let startIndex := index m in
          let fullMatchContent := match0 m in
          let contentToExtract :=
            if d_customRegex d then fullMatchContent else match1 m in
          let endIndex := startIndex + length fullMatchContent in
          option_map
            (cons {| m_display := isDisplay d;
                     m_content := contentToExtract;
                     m_start := startIndex;
                     m_end := endIndex |})
            (execLoop fuel' d input endIndex)
      end
  end.

(** Every match of the table's patterns is at least two code units long, so
    the loop body runs at most [length input] times (see
    [execLoop_terminates]). *)
Definition delimiterMatches (d : Delimiter) (input : jsstring) : list Match :=
  match execLoop (S (length input)) d input 0 with
  | Some ms => ms
  | None => []
  end.

(** Step 1: all possible matches of all delimiters, in table order. *)
Definition allRawMatches (input : jsstring) : list Match :=
  fold_left (fun acc d => acc ++ delimiterMatches d input) delimiters [].

(** Step 2: the comparator handed to [sort]. *)
Definition compareMatches (a b : Match) : Z :=
  if negb (m_start a =? m_start b) then
    (Z.of_nat (m_start a) - Z.of_nat (m_start b))%Z
  else
    (Z.of_nat (m_end b) - Z.of_nat (m_start b)
     - (Z.of_nat (m_end a) - Z.of_nat (m_start a)))%Z.

(** [Array.prototype.sort] is a stable sort. *)
Fixpoint insertSorted (x : Match) (l : list Match) : list Match :=
  match l with
  | [] => [x]
  | y :: l' =>
      if (compareMatches x y <=? 0)%Z then x :: l else y :: insertSorted x l'
  end.

Fixpoint sortMatches (l : list Match) : list Match :=
  match l with
  | [] => []
  | x :: l' => insertSorted x (sortMatches l')
  end.

(** Step 3: the sweep that keeps non-overlapping matches.  The state is
    [(finalMatches, lastProcessedEndIndex)]. *)
Definition sweepStep (st : list Match * nat) (currentMatch : Match)
  : list Match * nat :=
  let '(finalMatches, lastProcessedEndIndex) := st in
  if lastProcessedEndIndex <=? m_start currentMatch
  then (finalMatches ++ [currentMatch], m_end currentMatch)
  else (finalMatches, lastProcessedEndIndex).

Definition sweep (sorted : list Match) : list Match :=
  fst (fold_left sweepStep sorted ([], 0)).

Definition finalMatches (input : jsstring) : list Match :=
  sweep (sortMatches (allRawMatches input)).

(** Step 4: text and math segments.  The state is [(output, previousIndex)]. *)
Definition textSegment (s : jsstring) : ParsedSegment :=
  {| type := text; display := false; content := s |}.

Definition mathSegment (m : Match) : ParsedSegment :=
  {| type := math; display := m_display m; content := m_content m |}.

Definition buildStep (input : jsstring) (st : list ParsedSegment * nat) (m : Match)
  : list ParsedSegment * nat :=
  let '(output, previousIndex) := st in
  let output :=
    if previousIndex <? m_start m
    then output ++ [textSegment (substring input previousIndex (m_start m))]
    else output in
  (output ++ [mathSegment m], m_end m).

Definition buildSegments (input : jsstring) (final : list Match) : list ParsedSegment :=
  let '(output, previousIndex) := fold_left (buildStep input) final ([], 0) in
  if previousIndex <? length input
  then output ++ [textSegment (substring input previousIndex (length input))]
  else output.

Definition parseDelimiters (input : jsstring) : list ParsedSegment :=
  buildSegments input (finalMatches input).

(** ** The cosmetic rewrite of the engine's error markup

    The markup returned by the engine goes through one global [replace]
    whose pattern is the literal text [ParseError: KaTeX parse error:]
    guarded by a look-behind (an opening [span] tag whose [class] attribute
    is [katex-error], followed by the opening quote of its [title]
    attribute) and a look-ahead (the rest of the attribute value, its
    closing quote and the end of the tag).  The two assertions only decide
    whether an offset is admissible, so they are modelled by language
    membership, decided with derivatives. *)

Inductive Regex : Type :=
| NoMatch
| Eps
| Class (p : N -> bool)
| Cat (r1 r2 : Regex)
| Alt (r1 r2 : Regex)
| Star (r : Regex).

Fixpoint nullable (r : Regex) : bool :=
  match r with
  | NoMatch => false
  | Eps => true
  | Class _ => false
  | Cat r1 r2 => nullable r1 && nullable r2
  | Alt r1 r2 => nullable r1 || nullable r2
  | Star _ => true
  end.

Fixpoint deriv (c : N) (r : Regex) : Regex :=
  match r with
  | NoMatch => NoMatch
  | Eps => NoMatch
  | Class p => if p c then Eps else NoMatch
  | Cat r1 r2 =>
      if nullable r1
      then Alt (Cat (deriv c r1) r2) (deriv c r2)
      else Cat (deriv c r1) r2
  | Alt r1 r2 => Alt (deriv c r1) (deriv c r2)
  | Star r1 => Cat (deriv c r1) (Star r1)
  end.

(** Whether some prefix of [s] belongs to the language of [r]. *)
Fixpoint matchesPrefix (r : Regex) (s : jsstring) : bool :=
  if nullable r then true
  else match s with
       | [] => false
       | c :: s' => matchesPrefix (deriv c r) s'
       end.

(** The pattern that matches the mirror images of the words of [r]. *)
Fixpoint mirror (r : Regex) : Regex :=
  match r with
  | Cat r1 r2 => Cat (mirror r2) (mirror r1)
  | Alt r1 r2 => Alt (mirror r1) (mirror r2)
  | Star r1 => Star (mirror r1)
  | _ => r
  end.

Fixpoint lit (s : jsstring) : Regex :=
  match s with
  | [] => Eps
  | c :: s' => Cat (Class (N.eqb c)) (lit s')
  end.

Definition oneOrMore (r : Regex) : Regex := Cat r (Star r).

(** [\s] without the [u] flag: white space and line terminators. *)
Definition isSpace (c : N) : bool :=
  ((9 <=? c) && (c <=? 13) || (c =? 32) || (c =? 160) || (c =? 5760)
   || (8192 <=? c) && (c <=? 8202) || (c =? 8232) || (c =? 8233)
   || (c =? 8239) || (c =? 8287) || (c =? 12288) || (c =? 65279))%N.

Definition notChar (x : N) (c : N) : bool := negb (c =? x)%N.

Definition GREATER : N := 62.

Definition lookbehindPattern : Regex :=
  Cat (lit (js "<span"))
 (Cat (Star (Class (notChar GREATER)))
 (Cat (oneOrMore (Class isSpace))
 (Cat (lit (js "class=" ++ [QUOTE] ++ js "katex-error" ++ [QUOTE]))
 (Cat (Star (Class (notChar GREATER)))
 (Cat (oneOrMore (Class isSpace))
      (lit (js "title=" ++ [QUOTE]))))))).

Definition lookaheadPattern : Regex :=
  Cat (Star (Class (notChar QUOTE)))
 (Cat (Class (N.eqb QUOTE))
 (Cat (Star (Class (notChar GREATER)))
      (Class (N.eqb GREATER)))).

Definition KATEX_ERROR_PREFIX : jsstring := js "ParseError: KaTeX parse error:".
Definition LATEX_ERROR_LABEL : jsstring := js "LaTeX Error:".

(** Whether the pattern matches at the current offset; [before] holds the
    text to the left of the offset, nearest code unit first. *)
Definition errorPrefixHere (before s : jsstring) : bool :=
  if startsWith KATEX_ERROR_PREFIX s then
    if matchesPrefix (mirror lookbehindPattern) before
    then matchesPrefix lookaheadPattern (skipn (length KATEX_ERROR_PREFIX) s)
    else false
  else false.

Fixpoint relabelScan (before : jsstring) (skip : nat) (s : jsstring) : jsstring :=
  match s with
  | [] => []
  | c :: s' =>
      match skip with
      | S k => relabelScan (c :: before) k s'
      | 0 =>
          if errorPrefixHere before s
          then LATEX_ERROR_LABEL
               ++ relabelScan (c :: before) (length KATEX_ERROR_PREFIX - 1) s'
          else c :: relabelScan (c :: before) 0 s'
      end
  end.

Definition relabelKatexError (markup : jsstring) : jsstring :=
  relabelScan [] 0 markup.

(** ** renderMath

    The typesetting engine is external: [renderToString content displayMode]
    stands for [katex.renderToString(content, {displayMode, throwOnError:
    false, strict: false, trust: true})], which returns markup ([inl]) or
    throws ([inr]).  The computation threads the list of calls made to the
    engine and may end in an exception. *)

Definition EngineCall : Type := jsstring * bool.

Definition M (A : Type) : Type := list EngineCall -> Result (A * list EngineCall).

Definition ret {A} (a : A) : M A := fun calls => OK (a, calls).

Definition bind {A B} (m : M A) (k : A -> M B) : M B :=
  fun calls =>
    match m calls with
    | OK (a, calls') => k a calls'
    | Throw e => Throw e
    end.

Definition lift {A} (r : Result A) : M A :=
  fun calls =>
    match r with
    | OK a => OK (a, calls)
    | Throw e => Throw e
    end.

Notation "x <- m ;; k" := (bind m (fun x => k))
  (at level 61, m at next level, right associativity).

(** [array.forEach] whose callback updates one captured variable. *)
Fixpoint forEach {A S} (body : S -> A -> M S) (l : list A) (s : S) : M S :=
  match l with
  | [] => ret s
  | x :: l' => s' <- body s x ;; forEach body l' s'
  end.

(** The loop of Step 1 of [renderMath], for a given order of the escape
    sequences; the source runs it on [escapeSequences]. *)
Definition escapeInOrder (order : list jsstring) (cleanedInput : jsstring)
  : M jsstring :=
  forEach (fun escapedInput sequenceToEscape =>
             lift (replacePredefinedEscapeSequences escapedInput sequenceToEscape))
          order cleanedInput.

Section RenderMath.

Variable renderToString : jsstring -> bool -> jsstring + jsstring.

Definition callEngine (content : jsstring) (displayMode : bool) : M jsstring :=
  fun calls =>
    match renderToString content displayMode with
    | inl markup => OK (markup, calls ++ [(content, displayMode)])
    | inr payload => Throw (EngineException payload)
    end.

Definition renderSegment (renderedOutput : jsstring) (segment : ParsedSegment)
  : M jsstring :=
  match type segment with
  | text =>
      let textWithLineBreaks := convertNewlinesToLatexBreaks (content segment) in
      ret (renderedOutput ++ unescapeCharacters textWithLineBreaks)
  | math =>
      markup <- callEngine (revertEscapedCharacters (content segment))
                           (display segment) ;;
      ret (renderedOutput ++ relabelKatexError markup)
  end.

(** Stripping pre-existing placeholders, then Step 1 of [renderMath]. *)
Definition cleanInput (input : jsstring) : jsstring :=
  replaceGlobal escapedSequences (fun _ => []) input.

Definition escapeInput (cleanedInput : jsstring) : M jsstring :=
  escapeInOrder escapeSequences cleanedInput.

Definition renderMath (input : jsstring) : M jsstring :=
  let cleanedInput := cleanInput input in
  escapedInput <- escapeInput cleanedInput ;;
  let parsedInput := parseDelimiters escapedInput in
  forEach renderSegment parsedInput [].

End RenderMath.

(** The engine that the test suite substitutes for KaTeX. *)
Definition includes (s tok : jsstring) : bool :=
  match indexOf tok s with Some _ => true | None => false end.

Definition mockRenderToString (str : jsstring) (displayMode : bool)
  : jsstring + jsstring :=
  let displayClass := if displayMode then js "katex-display" else [] in
  if includes str (js "\invalid")
  then inr (js "ParseError: KaTeX parse error: \invalid command")
  else inl (js "<span class=" ++ [QUOTE] ++ js "katex " ++ displayClass
            ++ [QUOTE] ++ js ">" ++ str ++ js "</span>").

(** An engine that never throws: it returns its input unchanged. *)
Definition echoRenderToString (str : jsstring) (displayMode : bool)
  : jsstring + jsstring := inl str.

(** ** Notions used by the properties *)

(** The recursion behind the sweep of Step 3, from a given cursor. *)
Fixpoint sweepFrom (lastProcessedEndIndex : nat) (l : list Match) : list Match :=
  match l with
  | [] => []
  | currentMatch :: l' =>
      if lastProcessedEndIndex <=? m_start currentMatch
      then currentMatch :: sweepFrom (m_end currentMatch) l'
      else sweepFrom lastProcessedEndIndex l'
  end.

(** The recursion behind the builder of Step 4, from a given cursor. *)
Fixpoint buildFrom (input : jsstring) (previousIndex : nat) (l : list Match)
  : list ParsedSegment :=
  match l with
  | [] =>
      if previousIndex <? length input
      then [textSegment (substring input previousIndex (length input))]
      else []
  | m :: l' =>
      (if previousIndex <? m_start m
       then [textSegment (substring input previousIndex (m_start m))]
       else [])
      ++ mathSegment m :: buildFrom input (m_end m) l'
  end.

(** Every match starts at or after the end of the one before it, the first
    one at or after [cursor]. *)
Fixpoint chained (cursor : nat) (l : list Match) : Prop :=
  match l with
  | [] => True
  | m :: l' => cursor <= m_start m /\ chained (m_end m) l'
  end.

(** The order that the specification gives for Step 2: start offset
    ascending, span length descending among equal starts. *)
Definition startThenLongest (a b : Match) : Prop :=
  m_start a < m_start b \/
  (m_start a = m_start b /\ m_end b - m_start b <= m_end a - m_start a).

(** A match as the scan of [input] produces it: a non-empty span inside the
    input that reads start token, body, end token for one entry of the
    table, with the content that entry prescribes. *)
Definition spanOf (input : jsstring) (m : Match) : jsstring :=
  firstn (m_end m - m_start m) (skipn (m_start m) input).

Definition scanned (input : jsstring) (m : Match) : Prop :=
  m_start m < m_end m /\ m_end m <= length input /\
  exists d body,
    In d delimiters /\
    spanOf input m = d_start d ++ body ++ d_end d /\
    m_content m = (if d_customRegex d then spanOf input m else body) /\
    m_display m = isDisplay d.

(** How a segment relates to the piece of the input it stands for. *)
Definition covers (seg : ParsedSegment) (piece : jsstring) : Prop :=
  match type seg with
  | text => content seg = piece /\ display seg = false /\ piece <> []
  | math =>
      exists d body,
        In d delimiters /\
        piece = d_start d ++ body ++ d_end d /\
        content seg = (if d_customRegex d then piece else body) /\
        display seg = isDisplay d
  end.

Definition wellFormed (m : Match) : Prop := m_start m <= m_end m.

(** A pattern none of whose matches is empty. *)
Definition nonEmptyPattern (d : Delimiter) : Prop :=
  0 < length (d_start d) + length (d_end d).

(** A start token that is missing, or whose first occurrence is not
    followed by the end token. *)
Definition unterminated (d : Delimiter) (input : jsstring) : bool :=
  match indexOf (d_start d) input with
  | None => true
  | Some i =>
      match indexOf (d_end d) (skipn (i + length (d_start d)) input) with
      | None => true
      | Some _ => false
      end
  end.

Definition isText (seg : ParsedSegment) : bool :=
  match type seg with text => true | math => false end.

(** Number of newline characters that lie in text segments. *)
Definition newlinesOutsideMath (segments : list ParsedSegment) : nat :=
  count_occ N.eq_dec (concat (map content (filter isText segments))) NEWLINE.

(** Number of offsets of [s] at which [tok] occurs. *)
Fixpoint occurrences (tok s : jsstring) : nat :=
  (if startsWith tok s then 1 else 0) +
  match s with
  | [] => 0
  | _ :: s' => occurrences tok s'
  end.

(** The input of the newline example: a, newline, b, space, dollar, x,
    newline, y, dollar, space, c. *)
Definition newlineExample : jsstring :=
  js "a" ++ [NEWLINE] ++ js "b $x" ++ [NEWLINE] ++ js "y$ c".

(** What the newline conversion does to one code unit. *)
Definition breakOrKeep (c : N) : jsstring :=
  if (c =? NEWLINE)%N then LATEX_BREAK else [c].

(** ** Notions used by the further properties *)

Definition isRegexSpecial (c : N) : bool := existsb (N.eqb c) regexSpecials.

(** How a pattern reads an escaped literal: a backslash quotes the code
    unit that follows it. *)
Fixpoint readLiteral (pattern : jsstring) : jsstring :=
  match pattern with
  | [] => []
  | c :: rest =>
      if (c =? BACKSLASH)%N then
        match rest with
        | [] => [c]
        | quoted :: rest' => quoted :: readLiteral rest'
        end
      else c :: readLiteral rest
  end.

(** The first code unit of both placeholders. *)
Definition PLACEHOLDER_LEAD : N := 240.

(** Every occurrence of the placeholders' first code unit is the beginning
    of one of the two placeholders. *)
Fixpoint leadAlwaysPlaceholder (s : jsstring) : bool :=
  match s with
  | [] => true
  | c :: rest =>
      (if (c =? PLACEHOLDER_LEAD)%N
       then startsWith BACKSLASH_PLACEHOLDER s || startsWith DOLLAR_PLACEHOLDER s
       else true)
      && leadAlwaysPlaceholder rest
  end.

Definition isMath (seg : ParsedSegment) : bool := negb (isText seg).

(** The call that rendering a math segment makes to the engine. *)
Definition engineCallOf (seg : ParsedSegment) : EngineCall :=
  (revertEscapedCharacters (content seg), display seg).

Fixpoint noAdjacentText (segments : list ParsedSegment) : bool :=
  match segments with
  | [] => true
  | seg :: rest =>
      match rest with
      | next :: _ => negb (isText seg && isText next)
      | [] => true
      end && noAdjacentText rest
  end.

(** Text in which nothing is special for [renderMath]: no dollar sign, no
    backslash, no newline and no placeholder code unit. *)
Definition plainUnit (c : N) : bool :=
  negb ((c =? DOLLAR) || (c =? BACKSLASH) || (c =? NEWLINE)
        || (c =? PLACEHOLDER_LEAD))%N.

(** What one segment contributes to the output when the engine returns
    [markupOf content displayMode]. *)
Definition renderedPiece (markupOf : jsstring -> bool -> jsstring)
           (seg : ParsedSegment) : jsstring :=
  match type seg with
  | text => unescapeCharacters (convertNewlinesToLatexBreaks (content seg))
  | math =>
      relabelKatexError
        (markupOf (revertEscapedCharacters (content seg)) (display seg))
  end.

(** The first two entries of the table. *)
Definition displayDollar : Delimiter :=
  {| d_start := js "$$"; d_end := js "$$";
     d_type := display_type; d_customRegex := false |}.

Definition inlineDollar : Delimiter :=
  {| d_start := js "$"; d_end := js "$";
     d_type := inline_type; d_customRegex := false |}.

(** Neither a dollar sign nor a backslash. *)
Definition noDelimiterUnit (c : N) : bool :=
  negb ((c =? DOLLAR) || (c =? BACKSLASH))%N.

(** A formula between single dollar signs, with text before and after, and
    the candidate that the scan of the inline dollar delimiter finds in it. *)
Definition inlineInput (pre body post : jsstring) : jsstring :=
  pre ++ DOLLAR :: body ++ DOLLAR :: post.

Definition inlineFound (pre body : jsstring) : Match :=
  {| m_display := false; m_content := body;
     m_start := length pre;
     m_end := length pre + length (DOLLAR :: body ++ [DOLLAR]) |}.

(** The words of a pattern. *)
Inductive matches : Regex -> jsstring -> Prop :=
| matches_eps : matches Eps []
| matches_class (p : N -> bool) (c : N) : p c = true -> matches (Class p) [c]
| matches_cat (r1 r2 : Regex) (s1 s2 : jsstring) :
    matches r1 s1 -> matches r2 s2 -> matches (Cat r1 r2) (s1 ++ s2)
| matches_alt_l (r1 r2 : Regex) (s : jsstring) :
    matches r1 s -> matches (Alt r1 r2) s
| matches_alt_r (r1 r2 : Regex) (s : jsstring) :
    matches r2 s -> matches (Alt r1 r2) s
| matches_star_nil (r : Regex) : matches (Star r) []
| matches_star_app (r : Regex) (s1 s2 : jsstring) :
    matches r s1 -> matches (Star r) s2 -> matches (Star r) (s1 ++ s2).

(** The beginning of the error markup of the engine: an opening span tag
    with the error class, up to the opening quote of its title. *)
Definition ERROR_HEADER : jsstring :=
  js "<span class=" ++ [QUOTE] ++ js "katex-error" ++ [QUOTE]
  ++ js " title=" ++ [QUOTE].

(** A run of [k] backslashes, and what replacing backslash-backslash makes
    of it: one placeholder per pair, then the backslash left over when [k]
    is odd. *)
Definition backslashes (k : nat) : jsstring := repeat BACKSLASH k.

Fixpoint pairsEscaped (k : nat) : jsstring :=
  match k with
  | S (S k') => BACKSLASH_PLACEHOLDER ++ pairsEscaped k'
  | _ => []
  end.

Fixpoint oddOneOut (k : nat) : jsstring :=
  match k with
  | 0 => []
  | 1 => [BACKSLASH]
  | S (S k') => oddOneOut k'
  end.

(** Whether some dollar sign of [s] comes directly after a run of an even,
    non-zero number of backslashes; [run] is the number of backslashes
    directly before [s]. *)
Fixpoint evenRunBeforeDollar (run : nat) (s : jsstring) : bool :=
  match s with
  | [] => false
  | c :: t =>
      if (c =? BACKSLASH)%N then evenRunBeforeDollar (S run) t
      else if (c =? DOLLAR)%N
           then ((0 <? run) && Nat.even run) || evenRunBeforeDollar 0 t
           else evenRunBeforeDollar 0 t
  end.

(** * Properties *)

(** ** Behaviour on the inputs of the test suite *)

Example parse_plain :
  parseDelimiters (js "Hello world, this is plain text.")
  = [textSegment (js "Hello world, this is plain text.")].
Proof. vm_compute. reflexivity. Qed.

Example parse_mixed :
  parseDelimiters (js "First $a$, then $b$, and finally end.")
  = [ textSegment (js "First ");
      {| type := math; display := false; content := js "a" |};
      textSegment (js ", then ");
      {| type := math; display := false; content := js "b" |};
      textSegment (js ", and finally end.") ].
Proof. vm_compute. reflexivity. Qed.

Example parse_parenthetical :
  parseDelimiters (js "Inline \(x\) and display \[y\]")
  = [ textSegment (js "Inline ");
      {| type := math; display := false; content := js "x" |};
      textSegment (js " and display ");
      {| type := math; display := true; content := js "y" |} ].
Proof. vm_compute. reflexivity. Qed.

Example parse_align :
  parseDelimiters (js "\begin{align}x &= 1\\y &= 2\end{align}")
  = [ {| type := math; display := true;
         content := js "\begin{align}x &= 1\\y &= 2\end{align}" |} ].
Proof. vm_compute. reflexivity. Qed.

Example render_inline :
  renderMath mockRenderToString (js "Let $x=5$.") []
  = OK (js "Let <span class=" ++ [QUOTE] ++ js "katex " ++ [QUOTE]
        ++ js ">x=5</span>.",
        [(js "x=5", false)]).
Proof. vm_compute. reflexivity. Qed.

Example render_escaped_backslashes :
  renderMath mockRenderToString (js "A matrix $\begin{pmatrix} a \\ b \end{pmatrix}$") []
  = OK (js "A matrix <span class=" ++ [QUOTE] ++ js "katex " ++ [QUOTE]
        ++ js ">\begin{pmatrix} a \\ b \end{pmatrix}</span>",
        [(js "\begin{pmatrix} a \\ b \end{pmatrix}", false)]).
Proof. vm_compute. reflexivity. Qed.

Example parse_placeholder_is_text :
  parseDelimiters (js "Price is " ++ DOLLAR_PLACEHOLDER ++ js "5, not $math$")
  = [ textSegment (js "Price is " ++ DOLLAR_PLACEHOLDER ++ js "5, not ");
      {| type := math; display := false; content := js "math" |} ].
Proof. vm_compute. reflexivity. Qed.

Example render_display :
  renderMath mockRenderToString (js "The formula: $$E=mc^2$$") []
  = OK (js "The formula: <span class=" ++ [QUOTE] ++ js "katex katex-display"
        ++ [QUOTE] ++ js ">E=mc^2</span>",
        [(js "E=mc^2", true)]).
Proof. vm_compute. reflexivity. Qed.

Example render_escaped_dollar_sentence :
  renderMath mockRenderToString (js "This costs \$5.") [] = OK (js "This costs $5.", []).
Proof. vm_compute. reflexivity. Qed.

Example render_align_star :
  renderMath mockRenderToString
    (js "Aligned equation: \begin{align*}E &= mc^2\end{align*}") []
  = OK (js "Aligned equation: <span class=" ++ [QUOTE] ++ js "katex katex-display"
        ++ [QUOTE] ++ js ">\begin{align*}E &= mc^2\end{align*}</span>",
        [(js "\begin{align*}E &= mc^2\end{align*}", true)]).
Proof. vm_compute. reflexivity. Qed.

Example render_engine_throws :
  renderMath mockRenderToString (js "This has an error: $a + \invalid$") []
  = Throw (EngineException (js "ParseError: KaTeX parse error: \invalid command")).
Proof. vm_compute. reflexivity. Qed.

Example clean_strips_placeholders :
  cleanInput (js "a" ++ DOLLAR_PLACEHOLDER ++ js "b" ++ BACKSLASH_PLACEHOLDER)
  = js "ab".
Proof. vm_compute. reflexivity. Qed.

Example relabel_error :
  relabelKatexError
    (js "<span class=" ++ [QUOTE] ++ js "katex-error" ++ [QUOTE] ++ js " title="
     ++ [QUOTE] ++ js "ParseError: KaTeX parse error: something" ++ [QUOTE]
     ++ js ">Error</span>")
  = js "<span class=" ++ [QUOTE] ++ js "katex-error" ++ [QUOTE] ++ js " title="
     ++ [QUOTE] ++ js "LaTeX Error: something" ++ [QUOTE] ++ js ">Error</span>".
Proof. vm_compute. reflexivity. Qed.

Example relabel_outside_attribute :
  relabelKatexError (js "<span>ParseError: KaTeX parse error: x</span>")
  = js "<span>ParseError: KaTeX parse error: x</span>".
Proof. vm_compute. reflexivity. Qed.

(** ** Facts about the string primitives *)

Lemma startsWith_app (tok t : jsstring) : startsWith tok (tok ++ t) = true.
Proof.
  induction tok as [|a tok IH]; simpl; [reflexivity|].
  now rewrite N.eqb_refl.
Qed.

Lemma startsWith_split (tok s : jsstring) :
  startsWith tok s = true -> s = tok ++ skipn (length tok) s.
Proof.
  revert s; induction tok as [|a tok IH]; intros s H; simpl in *.
  - reflexivity.
  - destruct s as [|b s]; [discriminate|].
    apply andb_prop in H as [Hab Hs].
    apply N.eqb_eq in Hab; subst b.
    simpl. f_equal. now apply IH.
Qed.

Lemma startsWith_length (tok s : jsstring) :
  startsWith tok s = true -> length tok <= length s.
Proof.
  intros H. apply startsWith_split in H.
  rewrite H, length_app. lia.
Qed.

Lemma startsWith_iff (tok s : jsstring) :
  startsWith tok s = true <-> exists t, s = tok ++ t.
Proof.
  split.
  - intros H. eexists. now apply startsWith_split.
  - intros [t ->]. apply startsWith_app.
Qed.

Lemma jsstring_eqb_eq (a b : jsstring) : jsstring_eqb a b = true <-> a = b.
Proof.
  unfold jsstring_eqb. rewrite andb_true_iff, Nat.eqb_eq. split.
  - intros [Hlen H]. apply startsWith_split in H.
    rewrite Hlen, skipn_all, app_nil_r in H. congruence.
  - intros ->. split; [reflexivity|].
    rewrite <- (app_nil_r b) at 2. apply startsWith_app.
Qed.

(** [indexOf] returns an offset where the token occurs, and the first one. *)
Lemma indexOf_Some (tok s : jsstring) (k : nat) :
  indexOf tok s = Some k ->
  startsWith tok (skipn k s) = true /\ k + length tok <= length s.
Proof.
  revert k; induction s as [|c s IH]; intros k H; simpl in H.
  - destruct (startsWith tok []) eqn:E; [|discriminate].
    injection H as <-. split; [exact E|].
    apply startsWith_length in E. simpl in *. lia.
  - destruct (startsWith tok (c :: s)) eqn:E.
    + injection H as <-. split; [exact E|].
      apply startsWith_length in E. simpl in *. lia.
    + destruct (indexOf tok s) as [k'|]; [|discriminate].
      injection H as <-. destruct (IH k' eq_refl) as [H1 H2].
      split; [exact H1|simpl; lia].
Qed.

Lemma indexOf_Some_first (tok s : jsstring) (k j : nat) :
  indexOf tok s = Some k -> j < k -> startsWith tok (skipn j s) = false.
Proof.
  revert k j; induction s as [|c s IH]; intros k j H Hj; simpl in H.
  - destruct (startsWith tok []); [injection H as <-; lia|discriminate].
  - destruct (startsWith tok (c :: s)) eqn:E; [injection H as <-; lia|].
    destruct (indexOf tok s) as [k'|] eqn:Ek; [|discriminate].
    injection H as <-.
    destruct j as [|j]; [exact E|].
    simpl. apply (IH k'); [reflexivity|lia].
Qed.

Lemma indexOf_None (tok s : jsstring) (j : nat) :
  indexOf tok s = None -> startsWith tok (skipn j s) = false.
Proof.
  revert j; induction s as [|c s IH]; intros j H; simpl in H.
  - destruct (startsWith tok []) eqn:E; [discriminate|].
    now rewrite skipn_nil.
  - destruct (startsWith tok (c :: s)) eqn:E; [discriminate|].
    destruct (indexOf tok s) eqn:Ek; [discriminate|].
    destruct j as [|j]; [exact E|]. simpl. now apply IH.
Qed.

Lemma indexOf_None_skipn (tok s : jsstring) (j : nat) :
  indexOf tok s = None -> indexOf tok (skipn j s) = None.
Proof.
  intros H. destruct (indexOf tok (skipn j s)) as [k|] eqn:E; [|reflexivity].
  apply indexOf_Some in E as [E _].
  rewrite skipn_skipn in E.
  now rewrite (indexOf_None _ _ (k + j) H) in E.
Qed.

Lemma substring_ordered (s : jsstring) (a b : nat) :
  a <= b -> b <= length s -> substring s a b = firstn (b - a) (skipn a s).
Proof.
  intros Hab Hb. unfold substring.
  now rewrite !Nat.min_l, Nat.max_r by lia.
Qed.

Lemma firstn_plus (n m : nat) (t : jsstring) :
  firstn n t ++ firstn m (skipn n t) = firstn (n + m) t.
Proof.
  revert t; induction n as [|n IH]; intros t; [reflexivity|].
  destruct t as [|c t]; simpl.
  - now rewrite firstn_nil.
  - now rewrite IH.
Qed.

Lemma substring_join (s : jsstring) (a b c : nat) :
  a <= b -> b <= c -> c <= length s ->
  firstn (b - a) (skipn a s) ++ firstn (c - b) (skipn b s)
  = firstn (c - a) (skipn a s).
Proof.
  intros Hab Hbc Hc.
  replace (c - a) with ((b - a) + (c - b)) by lia.
  rewrite <- firstn_plus, skipn_skipn.
  now replace (b - a + a) with b by lia.
Qed.

(** ** Facts about the compiled patterns *)

Lemma matchHere_Some (d : Delimiter) (s m0 m1 : jsstring) :
  matchHere d s = Some (m0, m1) ->
  m0 = d_start d ++ m1 ++ d_end d /\ startsWith m0 s = true.
Proof.
  unfold matchHere. intros H.
  destruct (startsWith (d_start d) s) eqn:ES; [|discriminate].
  destruct (indexOf (d_end d) (skipn (length (d_start d)) s)) as [k|] eqn:EK;
    [|discriminate].
  injection H as <- <-.
  apply startsWith_split in ES.
  apply indexOf_Some in EK as [EE Hk].
  apply startsWith_split in EE.
  set (body := skipn (length (d_start d)) s) in *.
  assert (Hbody : body = firstn k body ++ d_end d
                         ++ skipn (length (d_end d)) (skipn k body)).
  { rewrite <- EE. symmetry. apply firstn_skipn. }
  assert (Hlen : length (firstn k body) = k) by (apply firstn_length_le; lia).
  assert (Hm0 : firstn (length (d_start d) + k + length (d_end d)) s
                = d_start d ++ firstn k body ++ d_end d).
  { rewrite ES at 1. rewrite <- Nat.add_assoc, firstn_app_2.
    f_equal. rewrite Hbody at 1.
    rewrite <- Hlen at 1. rewrite firstn_app_2.
    f_equal. rewrite <- (Nat.add_0_r (length (d_end d))).
    rewrite firstn_app_2. simpl. now rewrite app_nil_r. }
  split; [exact Hm0|].
  rewrite Hm0. apply startsWith_iff.
  exists (skipn (length (d_end d)) (skipn k body)).
  rewrite ES at 1. rewrite Hbody at 1. now rewrite <- !app_assoc.
Qed.

Lemma search_Some (d : Delimiter) (s : jsstring) (pos : nat) (m : RegExpExecArray) :
  search d s pos = Some m ->
  pos <= index m /\
  match0 m = d_start d ++ match1 m ++ d_end d /\
  startsWith (match0 m) (skipn (index m - pos) s) = true /\
  index m - pos + length (match0 m) <= length s.
Proof.
  revert pos; induction s as [|c s IH]; intros pos H; simpl in H.
  - destruct (matchHere d []) as [[m0 m1]|] eqn:E; [|discriminate].
    injection H as <-. simpl. apply matchHere_Some in E as [E1 E2].
    rewrite Nat.sub_diag. repeat split; auto.
    apply startsWith_length in E2. simpl in *. lia.
  - destruct (matchHere d (c :: s)) as [[m0 m1]|] eqn:E.
    + injection H as <-. simpl. apply matchHere_Some in E as [E1 E2].
      rewrite Nat.sub_diag. repeat split; auto.
      apply startsWith_length in E2. simpl in *. lia.
    + apply IH in H as (H1 & H2 & H3 & H4).
      replace (index m - pos) with (S (index m - S pos)) by lia.
      simpl. repeat split; auto; lia.
Qed.

(** What a successful [exec] returns. *)
Lemma exec_Some (d : Delimiter) (input : jsstring) (lastIndex : nat)
      (m : RegExpExecArray) :
  exec d input lastIndex = Some m ->
  lastIndex <= index m /\
  index m + length (match0 m) <= length input /\
  match0 m = d_start d ++ match1 m ++ d_end d /\
  firstn (length (match0 m)) (skipn (index m) input) = match0 m.
Proof.
  unfold exec. intros H.
  destruct (length input <? lastIndex) eqn:E; [discriminate|].
  apply Nat.ltb_ge in E.
  apply search_Some in H as (H1 & H2 & H3 & H4).
  rewrite skipn_skipn in H3. rewrite length_skipn in H4.
  replace (index m - lastIndex + lastIndex) with (index m) in H3 by lia.
  repeat split; auto; [lia|].
  apply startsWith_split in H3. rewrite H3 at 1.
  rewrite <- (Nat.add_0_r (length (match0 m))).
  rewrite firstn_app_2. simpl. now rewrite app_nil_r.
Qed.

Lemma delimiters_nonEmpty (d : Delimiter) : In d delimiters -> nonEmptyPattern d.
Proof.
  unfold nonEmptyPattern. simpl.
  intros H; repeat (destruct H as [<-|H]; [simpl; lia|]); contradiction.
Qed.

Lemma execLoop_S (fuel : nat) (d : Delimiter) (input : jsstring) (lastIndex : nat) :
  execLoop (S fuel) d input lastIndex
  = match exec d input lastIndex with
    | None => Some []
    | Some m =>
        option_map
          (cons {| m_display := isDisplay d;
                   m_content := if d_customRegex d then match0 m else match1 m;
                   m_start := index m;
                   m_end := index m + length (match0 m) |})
          (execLoop fuel d input (index m + length (match0 m)))
    end.
Proof. reflexivity. Qed.

(** The scanning loop stops before its fuel is used up. *)
Lemma execLoop_fuel (d : Delimiter) (input : jsstring) :
  nonEmptyPattern d ->
  forall fuel lastIndex,
    length input <= lastIndex + fuel ->
    execLoop (S fuel) d input lastIndex <> None.
Proof.
  intros Hd. induction fuel as [|fuel IH]; intros lastIndex Hf;
    rewrite execLoop_S;
    (destruct (exec d input lastIndex) as [m|] eqn:E; [|discriminate]);
    pose proof (exec_Some _ _ _ _ E) as (H1 & H2 & H3 & _);
    assert (Hlen : 0 < length (match0 m))
      by (rewrite H3, !length_app; unfold nonEmptyPattern in Hd; lia).
  - lia.
  - specialize (IH (index m + length (match0 m))).
    destruct (execLoop (S fuel) d input (index m + length (match0 m))) eqn:EL.
    + simpl. discriminate.
    + exfalso. apply IH; [lia|reflexivity].
Qed.

(** ** Step 1: the candidates *)

Lemma execLoop_scanned (d : Delimiter) (input : jsstring) :
  In d delimiters ->
  forall fuel lastIndex ms,
    execLoop fuel d input lastIndex = Some ms ->
    Forall (scanned input) ms.
Proof.
  intros Hd. induction fuel as [|fuel IH]; intros lastIndex ms H.
  - discriminate.
  - rewrite execLoop_S in H.
    destruct (exec d input lastIndex) as [m|] eqn:E.
    + destruct (execLoop fuel d input (index m + length (match0 m)))
        as [ms'|] eqn:EL; [|discriminate].
      injection H as <-.
      apply exec_Some in E as (H1 & H2 & H3 & H4).
      constructor; [|now apply (IH _ _ EL)].
      assert (Hspan : spanOf input
                {| m_display := isDisplay d;
                   m_content := if d_customRegex d then match0 m else match1 m;
                   m_start := index m;
                   m_end := index m + length (match0 m) |} = match0 m).
      { unfold spanOf; simpl.
        now replace (index m + length (match0 m) - index m)
          with (length (match0 m)) by lia. }
      split; [|split]; simpl.
      * pose proof (delimiters_nonEmpty d Hd) as Hne.
        unfold nonEmptyPattern in Hne.
        rewrite H3, !length_app. lia.
      * exact H2.
      * exists d, (match1 m). rewrite Hspan. auto.
    + injection H as <-. constructor.
Qed.

Lemma delimiterMatches_scanned (d : Delimiter) (input : jsstring) :
  In d delimiters -> Forall (scanned input) (delimiterMatches d input).
Proof.
  intros Hd. unfold delimiterMatches.
  destruct (execLoop (S (length input)) d input 0) as [ms|] eqn:E.
  - now apply (execLoop_scanned d input Hd _ _ _ E).
  - constructor.
Qed.

Lemma fold_left_app_acc {A B : Type} (f : A -> list B) (l : list A) (acc : list B) :
  fold_left (fun acc x => acc ++ f x) l acc = acc ++ flat_map f l.
Proof.
  revert acc; induction l as [|x l IH]; intros acc; simpl.
  - now rewrite app_nil_r.
  - now rewrite IH, app_assoc.
Qed.

Lemma allRawMatches_flat_map (input : jsstring) :
  allRawMatches input = flat_map (fun d => delimiterMatches d input) delimiters.
Proof. unfold allRawMatches. now rewrite fold_left_app_acc. Qed.

Lemma allRawMatches_scanned (input : jsstring) :
  Forall (scanned input) (allRawMatches input).
Proof.
  rewrite allRawMatches_flat_map. apply Forall_forall. intros m Hm.
  apply in_flat_map in Hm as (d & Hd & Hm).
  pose proof (delimiterMatches_scanned d input Hd) as HF.
  rewrite Forall_forall in HF. now apply HF.
Qed.

(** ** Step 2: the sort *)

Lemma insertSorted_perm (x : Match) (l : list Match) :
  Permutation (insertSorted x l) (x :: l).
Proof.
  induction l as [|y l IH]; simpl; [reflexivity|].
  destruct (compareMatches x y <=? 0)%Z; [reflexivity|].
  rewrite IH. apply perm_swap.
Qed.

Lemma sortMatches_perm (l : list Match) : Permutation (sortMatches l) l.
Proof.
  induction l as [|x l IH]; simpl; [reflexivity|].
  rewrite insertSorted_perm. now constructor.
Qed.

(** On spans with [start <= end] the comparator decides the order of the
    specification. *)
Lemma compareMatches_order (a b : Match) :
  wellFormed a -> wellFormed b ->
  ((compareMatches a b <= 0)%Z <-> startThenLongest a b).
Proof.
  unfold wellFormed, compareMatches, startThenLongest. intros Ha Hb.
  destruct (Nat.eqb_spec (m_start a) (m_start b)) as [E|E]; simpl; lia.
Qed.

Lemma compareMatches_total (a b : Match) :
  wellFormed a -> wellFormed b ->
  ~ (compareMatches a b <= 0)%Z -> startThenLongest b a.
Proof.
  unfold wellFormed, compareMatches, startThenLongest. intros Ha Hb.
  destruct (Nat.eqb_spec (m_start a) (m_start b)) as [E|E]; simpl; lia.
Qed.

Lemma startThenLongest_trans (a b c : Match) :
  startThenLongest a b -> startThenLongest b c -> startThenLongest a c.
Proof. unfold startThenLongest. lia. Qed.

Lemma insertSorted_sorted (x : Match) (l : list Match) :
  wellFormed x -> Forall wellFormed l ->
  StronglySorted startThenLongest l ->
  StronglySorted startThenLongest (insertSorted x l).
Proof.
  intros Hx Hl Hs. induction Hs as [|y l Hs IH Hy]; simpl.
  - repeat constructor.
  - inversion Hl as [|? ? Hwy Hwl]; subst.
    destruct (compareMatches x y <=? 0)%Z eqn:E.
    + apply Z.leb_le, compareMatches_order in E; auto.
      constructor; [now constructor|].
      constructor; [exact E|].
      eapply Forall_impl; [|exact Hy].
      intros z Hz. eapply startThenLongest_trans; eauto.
    + apply Z.leb_gt in E.
      assert (Hyx : startThenLongest y x)
        by (apply compareMatches_total; auto; lia).
      constructor; [now apply IH|].
      rewrite (insertSorted_perm x l). now constructor.
Qed.

Lemma sortMatches_sorted (l : list Match) :
  Forall wellFormed l -> StronglySorted startThenLongest (sortMatches l).
Proof.
  induction l as [|x l IH]; intros H; simpl; [constructor|].
  inversion H; subst.
  apply insertSorted_sorted; auto.
  now rewrite (sortMatches_perm l).
Qed.

Lemma scanned_wellFormed (input : jsstring) (m : Match) :
  scanned input m -> wellFormed m.
Proof. intros (H & _). unfold wellFormed. lia. Qed.

Lemma sorted_scanned (input : jsstring) :
  Forall (scanned input) (sortMatches (allRawMatches input)).
Proof.
  rewrite (sortMatches_perm (allRawMatches input)).
  apply allRawMatches_scanned.
Qed.

(** ** Step 3: the sweep *)

Lemma fold_sweepStep (l : list Match) (acc : list Match) (cursor : nat) :
  fst (fold_left sweepStep l (acc, cursor)) = acc ++ sweepFrom cursor l.
Proof.
  revert acc cursor; induction l as [|m l IH]; intros acc cursor; simpl.
  - now rewrite app_nil_r.
  - destruct (cursor <=? m_start m); rewrite IH; [|reflexivity].
    now rewrite <- app_assoc.
Qed.

Lemma sweep_sweepFrom (l : list Match) : sweep l = sweepFrom 0 l.
Proof. unfold sweep. now rewrite fold_sweepStep. Qed.

Lemma sweepFrom_In (m : Match) (l : list Match) (cursor : nat) :
  In m (sweepFrom cursor l) -> In m l.
Proof.
  revert cursor; induction l as [|x l IH]; intros cursor H; simpl in *; [easy|].
  destruct (cursor <=? m_start x); [destruct H as [H|H]|]; eauto.
Qed.

Lemma sweepFrom_chained (l : list Match) (cursor : nat) :
  chained cursor (sweepFrom cursor l).
Proof.
  revert cursor; induction l as [|x l IH]; intros cursor; simpl; [exact I|].
  destruct (Nat.leb_spec cursor (m_start x)); simpl; auto.
Qed.

Lemma chained_from (l : list Match) (cursor : nat) :
  Forall wellFormed l -> chained cursor l ->
  Forall (fun m => cursor <= m_start m) l.
Proof.
  revert cursor; induction l as [|x l IH]; intros cursor Hw Hc;
    constructor; inversion Hw; subst; destruct Hc as [Hx Hc]; [exact Hx|].
  eapply Forall_impl; [|apply (IH _ H2 Hc)].
  unfold wellFormed in *. simpl. intros; lia.
Qed.

Lemma chained_sorted (l : list Match) (cursor : nat) :
  Forall wellFormed l -> chained cursor l ->
  StronglySorted (fun a b => m_end a <= m_start b) l.
Proof.
  revert cursor; induction l as [|x l IH]; intros cursor Hw Hc; constructor;
    inversion Hw; subst; destruct Hc as [Hx Hc].
  - now apply (IH (m_end x)).
  - now apply chained_from.
Qed.

Lemma finalMatches_In (input : jsstring) (m : Match) :
  In m (finalMatches input) -> In m (allRawMatches input).
Proof.
  unfold finalMatches. rewrite sweep_sweepFrom. intros H.
  apply sweepFrom_In in H.
  now apply (Permutation_in _ (sortMatches_perm (allRawMatches input))).
Qed.

Lemma finalMatches_scanned (input : jsstring) :
  Forall (scanned input) (finalMatches input).
Proof.
  apply Forall_forall. intros m H. apply finalMatches_In in H.
  pose proof (allRawMatches_scanned input) as HF.
  rewrite Forall_forall in HF. now apply HF.
Qed.

Lemma finalMatches_chained (input : jsstring) : chained 0 (finalMatches input).
Proof. unfold finalMatches. rewrite sweep_sweepFrom. apply sweepFrom_chained. Qed.

(** Two members of a list of disjoint, non-empty, ordered spans of which
    one starts inside the other are the same member. *)
Lemma disjoint_spans_unique (l : list Match) (a c : Match) :
  Forall (fun m => m_start m < m_end m) l ->
  StronglySorted (fun a b => m_end a <= m_start b) l ->
  In a l -> In c l ->
  m_start a <= m_start c < m_end a -> c = a.
Proof.
  intros Hne Hs. induction Hs as [|x l Hs IH Hx]; intros Ha Hc Hin; [easy|].
  inversion Hne as [|? ? Hxne Hlne]; subst.
  rewrite Forall_forall in Hx, Hlne.
  destruct Ha as [<-|Ha], Hc as [<-|Hc].
  - reflexivity.
  - specialize (Hx _ Hc). lia.
  - specialize (Hx _ Ha). specialize (Hlne _ Ha). lia.
  - apply IH; auto. now apply Forall_forall.
Qed.

(** ** Step 4: the builder *)

Lemma fold_buildStep (input : jsstring) (l : list Match)
      (out : list ParsedSegment) (prev : nat) :
  (let '(output, previousIndex) := fold_left (buildStep input) l (out, prev) in
   if previousIndex <? length input
   then output ++ [textSegment (substring input previousIndex (length input))]
   else output)
  = out ++ buildFrom input prev l.
Proof.
  revert out prev; induction l as [|m l IH]; intros out prev; simpl.
  - destruct (prev <? length input); [reflexivity|now rewrite app_nil_r].
  - rewrite IH. destruct (prev <? m_start m); simpl;
      now rewrite <- !app_assoc.
Qed.

Lemma buildSegments_buildFrom (input : jsstring) (l : list Match) :
  buildSegments input l = buildFrom input 0 l.
Proof. unfold buildSegments. apply (fold_buildStep input l [] 0). Qed.

Lemma span_then_rest (s : jsstring) (a b : nat) :
  a <= b -> firstn (b - a) (skipn a s) ++ skipn b s = skipn a s.
Proof.
  intros H. replace (skipn b s) with (skipn (b - a) (skipn a s)).
  - apply firstn_skipn.
  - rewrite skipn_skipn. f_equal. lia.
Qed.

Lemma buildFrom_covers (input : jsstring) (l : list Match) :
  forall prev,
    Forall (scanned input) l -> chained prev l -> prev <= length input ->
    exists pieces,
      concat pieces = skipn prev input /\
      Forall2 covers (buildFrom input prev l) pieces.
Proof.
  induction l as [|m l IH]; intros prev Hs Hc Hp; simpl.
  - destruct (Nat.ltb_spec prev (length input)) as [Hlt|Hge].
    + exists [skipn prev input]. simpl. rewrite app_nil_r. split; [reflexivity|].
      constructor; [|constructor].
      rewrite substring_ordered by lia.
      rewrite firstn_all2 by (rewrite length_skipn; lia).
      unfold covers; simpl. repeat split.
      intros E. apply (f_equal (@length N)) in E.
      rewrite length_skipn in E. simpl in E. lia.
    + exists []. simpl. split; [|constructor].
      symmetry. apply skipn_all2. lia.
  - inversion Hs as [|? ? Hm Hl]; subst. destruct Hc as [Hpm Hc].
    destruct Hm as (Hne & Hend & d & body & Hd & Hspan & Hcontent & Hdisp).
    destruct (IH (m_end m) Hl Hc Hend) as (pieces & Hconcat & Hcov).
    assert (Hmath : covers (mathSegment m) (spanOf input m)).
    { unfold covers; simpl. exists d, body. auto. }
    assert (Hrest : spanOf input m ++ concat pieces = skipn (m_start m) input).
    { rewrite Hconcat. unfold spanOf. apply span_then_rest. lia. }
    destruct (Nat.ltb_spec prev (m_start m)) as [Hlt|Hge].
    + exists (firstn (m_start m - prev) (skipn prev input)
              :: spanOf input m :: pieces).
      split.
      * simpl. rewrite Hrest. apply span_then_rest. lia.
      * simpl. constructor; [|now constructor].
        rewrite substring_ordered by lia.
        unfold covers; simpl. repeat split.
        intros E. apply (f_equal (@length N)) in E.
        rewrite firstn_length_le in E by (rewrite length_skipn; lia).
        simpl in E. lia.
    + exists (spanOf input m :: pieces).
      assert (prev = m_start m) as -> by lia.
      split; [exact Hrest|]. simpl. now constructor.
Qed.

Lemma sweepFrom_from (l : list Match) (cursor : nat) :
  Forall wellFormed l ->
  Forall (fun m => cursor <= m_start m) (sweepFrom cursor l).
Proof.
  intros Hw. apply chained_from; [|apply sweepFrom_chained].
  rewrite Forall_forall in *. intros m Hm. eapply Hw, sweepFrom_In, Hm.
Qed.

(** Among candidates with the same start, only a longest one can survive
    the sweep of a list in the order of Step 2. *)
Lemma sweepFrom_prefers_longer (l : list Match) (a b : Match) :
  Forall (fun m => m_start m < m_end m) l ->
  StronglySorted startThenLongest l ->
  m_start a = m_start b -> m_end b < m_end a -> In a l ->
  forall cursor, ~ In b (sweepFrom cursor l).
Proof.
  intros Hne Hs Hstart Hend.
  induction Hs as [|x l Hs IH Hx]; intros Ha cursor Hb; [easy|].
  inversion Hne as [|? ? Hxne Hlne]; subst.
  assert (Hw : Forall wellFormed l).
  { eapply Forall_impl; [|exact Hlne]. unfold wellFormed. intros; lia. }
  assert (Hax : a = x -> forall c, m_start x < c -> ~ In b (sweepFrom c l)).
  { intros -> c Hc Hin. pose proof (sweepFrom_from l c Hw) as HF.
    rewrite Forall_forall in HF. specialize (HF _ Hin). lia. }
  simpl in Hb. destruct (Nat.leb_spec cursor (m_start x)) as [Hle|Hgt].
  - destruct Hb as [<-|Hb].
    + destruct Ha as [->|Ha]; [lia|].
      rewrite Forall_forall in Hx. specialize (Hx _ Ha).
      rewrite Forall_forall in Hlne. specialize (Hlne _ Ha).
      unfold startThenLongest in Hx. lia.
    + destruct Ha as [Ha|Ha].
      * now apply (Hax (eq_sym Ha) (m_end x)).
      * now apply (IH Hlne Ha (m_end x)).
  - destruct Ha as [Ha|Ha].
    + now apply (Hax (eq_sym Ha) cursor).
    + now apply (IH Hlne Ha cursor).
Qed.

Lemma scanned_nonEmpty (input : jsstring) (l : list Match) :
  Forall (scanned input) l -> Forall (fun m => m_start m < m_end m) l.
Proof. apply Forall_impl. now intros m (H & _). Qed.

(** ** Unterminated delimiters *)

Lemma search_None (d : Delimiter) (s : jsstring) (pos : nat) :
  (forall j, matchHere d (skipn j s) = None) -> search d s pos = None.
Proof.
  revert pos; induction s as [|c s IH]; intros pos H; cbn [search];
    pose proof (H 0) as H0; cbn [skipn] in H0; rewrite H0.
  - reflexivity.
  - apply IH. intros j. apply (H (S j)).
Qed.

Lemma unterminated_matchHere (d : Delimiter) (input : jsstring) (j : nat) :
  unterminated d input = true -> matchHere d (skipn j input) = None.
Proof.
  unfold unterminated, matchHere. intros H.
  destruct (startsWith (d_start d) (skipn j input)) eqn:ES; [|reflexivity].
  destruct (indexOf (d_start d) input) as [i|] eqn:EI.
  - destruct (indexOf (d_end d) (skipn (i + length (d_start d)) input)) eqn:EE;
      [discriminate|].
    assert (Hij : i <= j).
    { destruct (Nat.le_gt_cases i j) as [Hle|Hgt]; [exact Hle|].
      rewrite (indexOf_Some_first _ _ _ j EI Hgt) in ES. discriminate. }
    rewrite skipn_skipn.
    replace (length (d_start d) + j) with (j - i + (i + length (d_start d)))
      by lia.
    rewrite <- skipn_skipn.
    now rewrite (indexOf_None_skipn _ _ (j - i) EE).
  - rewrite (indexOf_None _ _ j EI) in ES. discriminate.
Qed.

Lemma unterminated_exec (d : Delimiter) (input : jsstring) (lastIndex : nat) :
  unterminated d (skipn lastIndex input) = true ->
  exec d input lastIndex = None.
Proof.
  intros H. unfold exec.
  destruct (length input <? lastIndex); [reflexivity|].
  apply search_None. intros j. now apply unterminated_matchHere.
Qed.

Lemma unterminated_no_match (d : Delimiter) (input : jsstring) :
  unterminated d input = true -> delimiterMatches d input = [].
Proof.
  intros H. unfold delimiterMatches. rewrite execLoop_S.
  now rewrite unterminated_exec.
Qed.

Lemma parseDelimiters_no_candidate (input : jsstring) :
  allRawMatches input = [] -> input <> [] ->
  parseDelimiters input = [textSegment input].
Proof.
  intros H Hne. unfold parseDelimiters, finalMatches. rewrite H.
  unfold buildSegments; simpl.
  destruct input as [|c s]; [contradiction|]. simpl (_ <? _).
  rewrite substring_ordered by lia.
  now rewrite Nat.sub_0_r, skipn_O, firstn_all.
Qed.

(** * The claims *)

(** C1 (as amended): the segments returned by [parseDelimiters] stand for
    consecutive pieces of the input that concatenate to the input, in order,
    without gap or overlap.  A text segment's content is its piece.  A math
    segment's piece is start token, body, end token of one table entry; its
    content is the whole piece for the two align environments and the body
    alone for the four bracket-style delimiters. *)
Theorem parseDelimiters_partition (input : jsstring) :
  exists pieces,
    concat pieces = input /\
    Forall2 covers (parseDelimiters input) pieces.
Proof.
  unfold parseDelimiters. rewrite buildSegments_buildFrom.
  destruct (buildFrom_covers input (finalMatches input) 0) as (pieces & H1 & H2).
  - apply finalMatches_scanned.
  - apply finalMatches_chained.
  - lia.
  - exists pieces. now split.
Qed.

(** C1 (as stated) fails: the contents of the segments of dollar, a, dollar
    concatenate to a alone; the two delimiter tokens are not part of any
    segment's content. *)
Lemma parseDelimiters_content_drops_tokens :
  concat (map content (parseDelimiters (js "$a$"))) <> js "$a$".
Proof. vm_compute. discriminate. Qed.

(** C4: the matches accepted by the sweep are mutually non-overlapping
    (each starts at or after the end of every earlier one), sorted by start
    offset and taken from the candidates; a candidate other than an accepted
    match whose start lies inside that match's span is not accepted; the
    nested inline span of the display example is not extracted. *)
Theorem sweep_sorted_nonoverlapping :
  (forall input,
      StronglySorted (fun a b => m_end a <= m_start b) (finalMatches input) /\
      StronglySorted (fun a b => m_start a < m_start b) (finalMatches input) /\
      (forall m, In m (finalMatches input) -> In m (allRawMatches input)) /\
      (forall a c,
          In a (finalMatches input) -> In c (allRawMatches input) ->
          c <> a -> m_start a <= m_start c < m_end a ->
          ~ In c (finalMatches input))) /\
  parseDelimiters (js "$$ a $b$ c $$")
  = [ {| type := math; display := true; content := js " a $b$ c " |} ].
Proof.
  split; [|vm_compute; reflexivity].
  intros input.
  pose proof (finalMatches_scanned input) as Hsc.
  pose proof (scanned_nonEmpty _ _ Hsc) as Hne.
  assert (Hw : Forall wellFormed (finalMatches input)).
  { eapply Forall_impl; [|exact Hne]. unfold wellFormed. intros; lia. }
  pose proof (chained_sorted _ 0 Hw (finalMatches_chained input)) as Hs.
  repeat split.
  - exact Hs.
  - clear Hsc Hw. induction Hs as [|x l Hs IH Hx]; constructor.
    + inversion Hne; subst. now apply IH.
    + inversion Hne as [|? ? Hxne Hlne]; subst.
      eapply Forall_impl; [|exact Hx]. simpl. intros; lia.
  - apply finalMatches_In.
  - intros a c Ha _ Hca Hin Hc. apply Hca.
    now apply (disjoint_spans_unique (finalMatches input)).
Qed.

Lemma sweep_sorted_nonoverlapping_witness :
  let input := js "$$ a $b$ c $$" in
  let a := {| m_display := true; m_content := js " a $b$ c ";
              m_start := 0; m_end := 13 |} in
  let c := {| m_display := false; m_content := js "b";
              m_start := 5; m_end := 8 |} in
  In a (finalMatches input) /\ In c (allRawMatches input) /\ c <> a /\
  m_start a <= m_start c < m_end a /\
  ~ In c (finalMatches input).
Proof.
  intros input a c.
  assert (Ha : In a (finalMatches input)) by (vm_compute; auto).
  assert (Hc : In c (allRawMatches input)) by (vm_compute; auto 6).
  assert (Hca : c <> a) by discriminate.
  assert (Hin : m_start a <= m_start c < m_end a) by (simpl; lia).
  repeat (split; [assumption|]).
  exact (proj2 (proj2 (proj2 (proj1 sweep_sorted_nonoverlapping input)))
           a c Ha Hc Hca Hin).
Defined.

(** C5: the candidates are sorted by start offset ascending and, among
    equal starts, by span length descending; a candidate that shares its
    start with a longer candidate is never accepted; two dollars, a, two
    dollars is one display segment. *)
Theorem longer_span_preferred :
  (forall input,
      Permutation (sortMatches (allRawMatches input)) (allRawMatches input) /\
      StronglySorted startThenLongest (sortMatches (allRawMatches input))) /\
  (forall input a b,
      In a (allRawMatches input) -> In b (allRawMatches input) ->
      m_start a = m_start b -> m_end b < m_end a ->
      ~ In b (finalMatches input)) /\
  parseDelimiters (js "$$a$$")
  = [ {| type := math; display := true; content := js "a" |} ].
Proof.
  split; [|split; [|vm_compute; reflexivity]].
  - intros input. split; [apply sortMatches_perm|].
    apply sortMatches_sorted.
    eapply Forall_impl; [|apply allRawMatches_scanned].
    apply scanned_wellFormed.
  - intros input a b Ha _ Hstart Hend.
    unfold finalMatches. rewrite sweep_sweepFrom.
    apply sweepFrom_prefers_longer with (a := a); auto.
    + apply (scanned_nonEmpty input), sorted_scanned.
    + apply sortMatches_sorted.
      eapply Forall_impl; [|apply allRawMatches_scanned].
      apply scanned_wellFormed.
    + now apply (Permutation_in _ (Permutation_sym (sortMatches_perm _))).
Qed.

Lemma longer_span_preferred_witness :
  let a := {| m_display := true; m_content := js "a"; m_start := 0; m_end := 5 |} in
  let b := {| m_display := false; m_content := []; m_start := 0; m_end := 2 |} in
  In a (allRawMatches (js "$$a$$")) /\ In b (allRawMatches (js "$$a$$")) /\
  ~ In b (finalMatches (js "$$a$$")).
Proof.
  intros a b.
  assert (Ha : In a (allRawMatches (js "$$a$$"))) by (vm_compute; auto).
  assert (Hb : In b (allRawMatches (js "$$a$$"))) by (vm_compute; auto).
  split; [exact Ha|]. split; [exact Hb|].
  apply (proj1 (proj2 longer_span_preferred) (js "$$a$$") a b Ha Hb);
    simpl; lia.
Defined.

(** C8: a scan that resumes where the next start token is not followed by
    the end token finds nothing, so a delimiter whose first start token is
    unterminated yields no candidate, and every candidate there is reads
    start token, body, end token inside the input; an input on which every
    delimiter is unterminated is one segment of type text, not display,
    whose content is the whole input, as on the two example inputs. *)
Theorem unterminated_is_text :
  (forall d input lastIndex,
      unterminated d (skipn lastIndex input) = true ->
      exec d input lastIndex = None) /\
  (forall d input, unterminated d input = true -> delimiterMatches d input = []) /\
  (forall input, Forall (scanned input) (allRawMatches input)) /\
  (forall input,
      forallb (fun d => unterminated d input) delimiters = true ->
      input <> [] ->
      allRawMatches input = [] /\
      parseDelimiters input
      = [ {| type := text; display := false; content := input |} ]) /\
  parseDelimiters (js "text with unclosed $ delimiter")
  = [ {| type := text; display := false;
         content := js "text with unclosed $ delimiter" |} ] /\
  parseDelimiters (js "mismatched \( delimiters \]")
  = [ {| type := text; display := false;
         content := js "mismatched \( delimiters \]" |} ].
Proof.
  split; [exact unterminated_exec|].
  split; [exact unterminated_no_match|].
  split; [exact allRawMatches_scanned|].
  split; [|split; vm_compute; reflexivity].
  intros input H Hne.
  assert (Hraw : allRawMatches input = []).
  { rewrite allRawMatches_flat_map.
    rewrite forallb_forall in H.
    induction delimiters as [|d ds IH]; [reflexivity|]. simpl.
    rewrite (unterminated_no_match d input) by (apply H; now left).
    apply IH. intros x Hx. apply H. now right. }
  split; [exact Hraw|].
  unfold parseDelimiters, finalMatches. rewrite Hraw.
  unfold buildSegments; simpl.
  destruct input as [|c s]; [contradiction|]. simpl (_ <? _).
  rewrite substring_ordered by lia.
  rewrite Nat.sub_0_r, skipn_O, firstn_all. reflexivity.
Qed.

Lemma unterminated_is_text_witness :
  forallb (fun d => unterminated d (js "price: $5")) delimiters = true /\
  js "price: $5" <> [] /\
  parseDelimiters (js "price: $5")
  = [ {| type := text; display := false; content := js "price: $5" |} ].
Proof.
  assert (H1 : forallb (fun d => unterminated d (js "price: $5")) delimiters = true)
    by (vm_compute; reflexivity).
  assert (H2 : js "price: $5" <> []) by discriminate.
  split; [exact H1|]. split; [exact H2|].
  apply (proj2 (proj1 (proj2 (proj2 (proj2 unterminated_is_text)))
                  (js "price: $5") H1 H2)).
Defined.

(** C9: the empty input yields the empty segment list. *)
Theorem parseDelimiters_empty : parseDelimiters [] = [].
Proof. reflexivity. Qed.

(** ** Facts about the global replace *)

Lemma replaceScan_skip (alts : list jsstring) (f : jsstring -> jsstring)
      (k : nat) (s : jsstring) :
  replaceScan alts f k s = replaceScan alts f 0 (skipn k s).
Proof.
  revert k; induction s as [|c s IH]; intros k.
  - now rewrite skipn_nil.
  - destruct k as [|k]; [reflexivity|]. simpl. apply IH.
Qed.

Lemma replaceScan_hit (alts : list jsstring) (f : jsstring -> jsstring)
      (alt s : jsstring) :
  alt <> [] -> firstMatching alts s = Some alt ->
  replaceScan alts f 0 s = f alt ++ replaceScan alts f 0 (skipn (length alt) s).
Proof.
  intros Hne H.
  assert (Hs : startsWith alt s = true).
  { unfold firstMatching in H. now apply find_some in H. }
  destruct alt as [|a alt']; [contradiction|].
  destruct s as [|c s']; [discriminate|].
  cbn [replaceScan]. rewrite H. now rewrite replaceScan_skip.
Qed.

Lemma replaceScan_miss (alts : list jsstring) (f : jsstring -> jsstring)
      (c : N) (s : jsstring) :
  firstMatching alts (c :: s) = None ->
  replaceScan alts f 0 (c :: s) = c :: replaceScan alts f 0 s.
Proof. intros H. cbn [replaceScan]. now rewrite H. Qed.

Lemma replaceAll_scan (input pat rep : jsstring) :
  pat <> [] ->
  replaceAll input pat rep = replaceScan [pat] (fun _ => rep) 0 input.
Proof.
  intros H. unfold replaceAll, replaceGlobal.
  destruct pat; [contradiction|]. simpl. apply app_nil_r.
Qed.

Lemma replaceAll_hit (pat rep t : jsstring) :
  pat <> [] ->
  replaceAll (pat ++ t) pat rep = rep ++ replaceAll t pat rep.
Proof.
  intros H. rewrite !replaceAll_scan by exact H.
  rewrite (replaceScan_hit [pat] (fun _ => rep) pat (pat ++ t) H).
  - f_equal. f_equal.
    rewrite <- (Nat.add_0_r (length pat)).
    now rewrite skipn_app, skipn_all2, Nat.add_0_r, Nat.sub_diag by lia.
  - unfold firstMatching. simpl. now rewrite startsWith_app.
Qed.

Lemma replaceAll_hit2 (a b : N) (rep t : jsstring) :
  replaceAll (a :: b :: t) [a; b] rep = rep ++ replaceAll t [a; b] rep.
Proof. apply (replaceAll_hit [a; b] rep t). discriminate. Qed.

Lemma replaceAll_miss (pat rep : jsstring) (c : N) (t : jsstring) :
  startsWith pat (c :: t) = false ->
  replaceAll (c :: t) pat rep = c :: replaceAll t pat rep.
Proof.
  intros H.
  assert (Hne : pat <> []) by (intros ->; discriminate).
  rewrite !replaceAll_scan by exact Hne.
  apply replaceScan_miss. unfold firstMatching. simpl. now rewrite H.
Qed.

Lemma startsWith_head (a c : N) (pat t : jsstring) :
  c <> a -> startsWith (a :: pat) (c :: t) = false.
Proof.
  intros H. simpl. destruct (N.eqb_spec a c); [congruence|reflexivity].
Qed.

Lemma startsWith_second (a b c c2 : N) (pat t : jsstring) :
  c2 <> b -> startsWith (a :: b :: pat) (c :: c2 :: t) = false.
Proof.
  intros H. simpl. destruct (N.eqb_spec b c2); [congruence|].
  apply andb_false_r.
Qed.

Lemma startsWith_short (a b c : N) (pat : jsstring) :
  startsWith (a :: b :: pat) [c] = false.
Proof. simpl. apply andb_false_r. Qed.

Lemma indexOf_None_cons (tok : jsstring) (c : N) (s : jsstring) :
  indexOf tok (c :: s) = None ->
  startsWith tok (c :: s) = false /\ indexOf tok s = None.
Proof.
  simpl. destruct (startsWith tok (c :: s)); [discriminate|].
  destruct (indexOf tok s); [discriminate|]. auto.
Qed.

(** ** The two escape substitutions *)

Lemma escapeInOrder_source (input : jsstring) (calls : list EngineCall) :
  escapeInOrder [js "\\"; js "\$"] input calls
  = OK (replaceAll (replaceAll input (js "\\") BACKSLASH_PLACEHOLDER)
                   (js "\$") DOLLAR_PLACEHOLDER, calls).
Proof. reflexivity. Qed.

Lemma escapeInOrder_opposite (input : jsstring) (calls : list EngineCall) :
  escapeInOrder [js "\$"; js "\\"] input calls
  = OK (replaceAll (replaceAll input (js "\$") DOLLAR_PLACEHOLDER)
                   (js "\\") BACKSLASH_PLACEHOLDER, calls).
Proof. reflexivity. Qed.

Lemma nat_ind2 (P : nat -> Prop) :
  P 0 -> P 1 -> (forall k, P k -> P (S (S k))) -> forall k, P k.
Proof.
  intros H0 H1 Hstep k.
  enough (H : P k /\ P (S k)) by apply H.
  induction k as [|k [IHk IHSk]]; [now split|].
  split; [exact IHSk|now apply Hstep].
Qed.

Lemma escape_backslash_run (k : nat) (u : jsstring) :
  startsWith [BACKSLASH] u = false ->
  replaceAll (backslashes k ++ u) [BACKSLASH; BACKSLASH] BACKSLASH_PLACEHOLDER
  = pairsEscaped k ++ oddOneOut k
    ++ replaceAll u [BACKSLASH; BACKSLASH] BACKSLASH_PLACEHOLDER.
Proof.
  intros Hu. induction k as [| |k IH] using nat_ind2.
  - reflexivity.
  - unfold backslashes. cbn [repeat app pairsEscaped oddOneOut].
    apply replaceAll_miss. destruct u as [|c u']; [apply startsWith_short|].
    apply startsWith_second. intros ->. discriminate Hu.
  - unfold backslashes in *. cbn [repeat app pairsEscaped oddOneOut].
    rewrite replaceAll_hit2, IH. now rewrite <- app_assoc.
Qed.

Lemma escape_dollar_keeps_backslash_placeholder (x : jsstring) :
  replaceAll (BACKSLASH_PLACEHOLDER ++ x) [BACKSLASH; DOLLAR] DOLLAR_PLACEHOLDER
  = BACKSLASH_PLACEHOLDER
    ++ replaceAll x [BACKSLASH; DOLLAR] DOLLAR_PLACEHOLDER.
Proof.
  unfold BACKSLASH_PLACEHOLDER at 1 2. cbn [app].
  now rewrite !(replaceAll_miss [BACKSLASH; DOLLAR])
    by (apply startsWith_head; discriminate).
Qed.

Lemma escape_backslash_keeps_dollar_placeholder (x : jsstring) :
  replaceAll (DOLLAR_PLACEHOLDER ++ x) [BACKSLASH; BACKSLASH] BACKSLASH_PLACEHOLDER
  = DOLLAR_PLACEHOLDER
    ++ replaceAll x [BACKSLASH; BACKSLASH] BACKSLASH_PLACEHOLDER.
Proof.
  unfold DOLLAR_PLACEHOLDER at 1 2. cbn [app].
  now rewrite !(replaceAll_miss [BACKSLASH; BACKSLASH])
    by (apply startsWith_head; discriminate).
Qed.

Lemma escape_dollar_keeps_pairs (k : nat) (y : jsstring) :
  replaceAll (pairsEscaped k ++ y) [BACKSLASH; DOLLAR] DOLLAR_PLACEHOLDER
  = pairsEscaped k ++ replaceAll y [BACKSLASH; DOLLAR] DOLLAR_PLACEHOLDER.
Proof.
  induction k as [| |k IH] using nat_ind2; try reflexivity.
  cbn [pairsEscaped]. rewrite <- !app_assoc.
  now rewrite escape_dollar_keeps_backslash_placeholder, IH.
Qed.

Lemma escape_dollar_after_odd (k : nat) (x : jsstring) :
  replaceAll (oddOneOut k ++ DOLLAR :: x) [BACKSLASH; DOLLAR] DOLLAR_PLACEHOLDER
  = (if Nat.even k then [DOLLAR] else DOLLAR_PLACEHOLDER)
    ++ replaceAll x [BACKSLASH; DOLLAR] DOLLAR_PLACEHOLDER.
Proof.
  induction k as [| |k IH] using nat_ind2.
  - cbn [oddOneOut app Nat.even].
    apply replaceAll_miss, startsWith_head. discriminate.
  - cbn [oddOneOut app Nat.even]. apply replaceAll_hit2.
  - cbn [oddOneOut]. rewrite Nat.even_succ_succ. exact IH.
Qed.

Lemma escape_dollar_after_odd_other (k : nat) (c : N) (x : jsstring) :
  c <> BACKSLASH -> c <> DOLLAR ->
  replaceAll (oddOneOut k ++ c :: x) [BACKSLASH; DOLLAR] DOLLAR_PLACEHOLDER
  = oddOneOut k ++ c :: replaceAll x [BACKSLASH; DOLLAR] DOLLAR_PLACEHOLDER.
Proof.
  intros Hb Hd. induction k as [| |k IH] using nat_ind2.
  - cbn [oddOneOut app]. now apply replaceAll_miss, startsWith_head.
  - cbn [oddOneOut app].
    rewrite (replaceAll_miss [BACKSLASH; DOLLAR]) by now apply startsWith_second.
    f_equal. now apply replaceAll_miss, startsWith_head.
  - exact IH.
Qed.

Lemma escape_dollar_odd_end (k : nat) :
  replaceAll (oddOneOut k) [BACKSLASH; DOLLAR] DOLLAR_PLACEHOLDER = oddOneOut k.
Proof. induction k as [| |k IH] using nat_ind2; auto. Qed.

Lemma escape_dollar_run_other (k : nat) (c : N) (t : jsstring) :
  c <> BACKSLASH -> c <> DOLLAR ->
  replaceAll (backslashes k ++ c :: t) [BACKSLASH; DOLLAR] DOLLAR_PLACEHOLDER
  = backslashes k ++ c :: replaceAll t [BACKSLASH; DOLLAR] DOLLAR_PLACEHOLDER.
Proof.
  intros Hb Hd. unfold backslashes. induction k as [|k IH].
  - cbn [repeat app]. now apply replaceAll_miss, startsWith_head.
  - cbn [repeat app]. rewrite <- IH. apply replaceAll_miss.
    destruct k as [|k]; cbn [repeat app]; apply startsWith_second;
      [exact Hd|discriminate].
Qed.

Lemma escape_dollar_run_dollar (k : nat) (t : jsstring) :
  replaceAll (backslashes (S k) ++ DOLLAR :: t) [BACKSLASH; DOLLAR] DOLLAR_PLACEHOLDER
  = backslashes k ++ DOLLAR_PLACEHOLDER
    ++ replaceAll t [BACKSLASH; DOLLAR] DOLLAR_PLACEHOLDER.
Proof.
  unfold backslashes. induction k as [|k IH].
  - cbn [repeat app]. apply replaceAll_hit2.
  - cbn [repeat app] in *. rewrite <- IH. apply replaceAll_miss.
    apply startsWith_second. discriminate.
Qed.

Lemma escape_dollar_run_end (k : nat) :
  replaceAll (backslashes k) [BACKSLASH; DOLLAR] DOLLAR_PLACEHOLDER
  = backslashes k.
Proof.
  unfold backslashes. induction k as [|k IH]; [reflexivity|].
  cbn [repeat]. rewrite <- IH at 2. apply replaceAll_miss.
  destruct k as [|k]; [apply startsWith_short|].
  cbn [repeat]. apply startsWith_second. discriminate.
Qed.

(** The two orders on a run of [k] backslashes followed by [s]. *)
Lemma source_order_other (k : nat) (c : N) (t : jsstring) :
  c <> BACKSLASH -> c <> DOLLAR ->
  replaceAll (replaceAll (backslashes k ++ c :: t)
                [BACKSLASH; BACKSLASH] BACKSLASH_PLACEHOLDER)
             [BACKSLASH; DOLLAR] DOLLAR_PLACEHOLDER
  = pairsEscaped k ++ oddOneOut k ++ c
    :: replaceAll (replaceAll t [BACKSLASH; BACKSLASH] BACKSLASH_PLACEHOLDER)
                  [BACKSLASH; DOLLAR] DOLLAR_PLACEHOLDER.
Proof.
  intros Hb Hd.
  rewrite escape_backslash_run by now apply startsWith_head.
  rewrite (replaceAll_miss [BACKSLASH; BACKSLASH]) by now apply startsWith_head.
  rewrite escape_dollar_keeps_pairs.
  now rewrite escape_dollar_after_odd_other.
Qed.

Lemma opposite_order_other (k : nat) (c : N) (t : jsstring) :
  c <> BACKSLASH -> c <> DOLLAR ->
  replaceAll (replaceAll (backslashes k ++ c :: t)
                [BACKSLASH; DOLLAR] DOLLAR_PLACEHOLDER)
             [BACKSLASH; BACKSLASH] BACKSLASH_PLACEHOLDER
  = pairsEscaped k ++ oddOneOut k ++ c
    :: replaceAll (replaceAll t [BACKSLASH; DOLLAR] DOLLAR_PLACEHOLDER)
                  [BACKSLASH; BACKSLASH] BACKSLASH_PLACEHOLDER.
Proof.
  intros Hb Hd.
  rewrite escape_dollar_run_other by assumption.
  rewrite escape_backslash_run by now apply startsWith_head.
  now rewrite (replaceAll_miss [BACKSLASH; BACKSLASH]) by now apply startsWith_head.
Qed.

Lemma source_order_dollar (k : nat) (t : jsstring) :
  replaceAll (replaceAll (backslashes k ++ DOLLAR :: t)
                [BACKSLASH; BACKSLASH] BACKSLASH_PLACEHOLDER)
             [BACKSLASH; DOLLAR] DOLLAR_PLACEHOLDER
  = pairsEscaped k ++ (if Nat.even k then [DOLLAR] else DOLLAR_PLACEHOLDER)
    ++ replaceAll (replaceAll t [BACKSLASH; BACKSLASH] BACKSLASH_PLACEHOLDER)
                  [BACKSLASH; DOLLAR] DOLLAR_PLACEHOLDER.
Proof.
  rewrite escape_backslash_run by reflexivity.
  rewrite (replaceAll_miss [BACKSLASH; BACKSLASH])
    by (apply startsWith_head; discriminate).
  rewrite escape_dollar_keeps_pairs.
  now rewrite escape_dollar_after_odd.
Qed.

Lemma opposite_order_dollar (k : nat) (t : jsstring) :
  replaceAll (replaceAll (backslashes (S k) ++ DOLLAR :: t)
                [BACKSLASH; DOLLAR] DOLLAR_PLACEHOLDER)
             [BACKSLASH; BACKSLASH] BACKSLASH_PLACEHOLDER
  = pairsEscaped k ++ oddOneOut k ++ DOLLAR_PLACEHOLDER
    ++ replaceAll (replaceAll t [BACKSLASH; DOLLAR] DOLLAR_PLACEHOLDER)
                  [BACKSLASH; BACKSLASH] BACKSLASH_PLACEHOLDER.
Proof.
  rewrite escape_dollar_run_dollar.
  rewrite escape_backslash_run by reflexivity.
  now rewrite escape_backslash_keeps_dollar_placeholder.
Qed.

(** After a run of [S k] backslashes and a dollar sign the two orders
    continue alike exactly when the run is odd. *)
Lemma orders_after_run (k : nat) (x y : jsstring) :
  pairsEscaped (S k) ++ (if Nat.even (S k) then [DOLLAR] else DOLLAR_PLACEHOLDER) ++ x
  = pairsEscaped k ++ oddOneOut k ++ DOLLAR_PLACEHOLDER ++ y
  <-> Nat.even (S k) = false /\ x = y.
Proof.
  induction k as [| |k IH] using nat_ind2.
  - cbn [pairsEscaped oddOneOut Nat.even app]. split.
    + intros H. split; [reflexivity|].
      now apply (app_inv_head DOLLAR_PLACEHOLDER).
    + now intros [_ ->].
  - cbn [pairsEscaped oddOneOut Nat.even app]. split.
    + intros H. discriminate H.
    + intros [H _]. discriminate H.
  - rewrite Nat.even_succ_succ, <- IH.
    cbn [pairsEscaped oddOneOut]. rewrite <- !app_assoc.
    apply app_inv_head_iff.
Qed.

Lemma backslashes_shift (k : nat) (t : jsstring) :
  backslashes k ++ BACKSLASH :: t = backslashes (S k) ++ t.
Proof.
  unfold backslashes. cbn [repeat]. rewrite repeat_cons.
  now rewrite <- app_assoc.
Qed.

(** The two orders agree on a run of [k] backslashes followed by [s]
    exactly when no dollar sign of it follows an even, non-zero run. *)
Lemma orders_agree_iff (s : jsstring) :
  forall k,
    replaceAll (replaceAll (backslashes k ++ s)
                  [BACKSLASH; BACKSLASH] BACKSLASH_PLACEHOLDER)
               [BACKSLASH; DOLLAR] DOLLAR_PLACEHOLDER
    = replaceAll (replaceAll (backslashes k ++ s)
                    [BACKSLASH; DOLLAR] DOLLAR_PLACEHOLDER)
                 [BACKSLASH; BACKSLASH] BACKSLASH_PLACEHOLDER
    <-> evenRunBeforeDollar k s = false.
Proof.
  induction s as [|c t IH]; intros k.
  - rewrite app_nil_r. cbn [evenRunBeforeDollar]. split; [reflexivity|intros _].
    rewrite escape_dollar_run_end.
    rewrite <- (app_nil_r (backslashes k)).
    rewrite escape_backslash_run by reflexivity.
    rewrite escape_dollar_keeps_pairs.
    change (replaceAll [] [BACKSLASH; BACKSLASH] BACKSLASH_PLACEHOLDER) with (@nil N).
    rewrite app_nil_r. now rewrite escape_dollar_odd_end.
  - cbn [evenRunBeforeDollar].
    destruct (N.eqb_spec c BACKSLASH) as [->|Hb].
    + rewrite backslashes_shift. apply IH.
    + destruct (N.eqb_spec c DOLLAR) as [->|Hd].
      * rewrite source_order_dollar. destruct k as [|k].
        -- change (backslashes 0 ++ DOLLAR :: t) with (DOLLAR :: t).
           rewrite (replaceAll_miss [BACKSLASH; DOLLAR])
             by (apply startsWith_head; discriminate).
           rewrite (replaceAll_miss [BACKSLASH; BACKSLASH])
             by (apply startsWith_head; discriminate).
           cbn [pairsEscaped Nat.even app Nat.ltb Nat.leb andb orb].
           rewrite <- (IH 0). change (backslashes 0 ++ t) with t.
           split; [intros H; now injection H|now intros ->].
        -- rewrite opposite_order_dollar, orders_after_run.
           change (0 <? S k) with true. cbn [andb].
           rewrite orb_false_iff, <- (IH 0).
           change (backslashes 0 ++ t) with t. reflexivity.
      * rewrite source_order_other, opposite_order_other by assumption.
        rewrite <- (IH 0). change (backslashes 0 ++ t) with t.
        split.
        -- intros H. apply app_inv_head in H. apply app_inv_head in H.
           now injection H.
        -- now intros ->.
Qed.

(** C2 (as amended): the source replaces backslash-backslash first and
    backslash-dollar second; the two orders give the same result exactly
    on the inputs in which no dollar sign comes directly after a run of an
    even, non-zero number of backslashes. *)
Theorem escape_orders_agree (input : jsstring) (calls : list EngineCall) :
  escapeSequences = [js "\\"; js "\$"] /\
  (escapeInOrder [js "\\"; js "\$"] input calls
   = escapeInOrder [js "\$"; js "\\"] input calls
   <-> evenRunBeforeDollar 0 input = false).
Proof.
  split; [reflexivity|].
  rewrite escapeInOrder_source, escapeInOrder_opposite.
  rewrite <- (orders_agree_iff input 0).
  change (backslashes 0 ++ input) with input.
  change (js "\\") with [BACKSLASH; BACKSLASH].
  change (js "\$") with [BACKSLASH; DOLLAR].
  split; [intros H; now injection H|now intros ->].
Qed.

Lemma escape_orders_agree_witness :
  evenRunBeforeDollar 0 (js "a\\b \$5 \\\$") = false /\
  escapeInOrder [js "\\"; js "\$"] (js "a\\b \$5 \\\$") []
  = escapeInOrder [js "\$"; js "\\"] (js "a\\b \$5 \\\$") [].
Proof.
  assert (H : evenRunBeforeDollar 0 (js "a\\b \$5 \\\$") = false)
    by (vm_compute; reflexivity).
  split; [exact H|].
  apply (proj2 (proj2 (escape_orders_agree (js "a\\b \$5 \\\$") [])) H).
Defined.

(** C2 (as stated) fails on backslash, backslash, dollar: the source's
    order yields the backslash placeholder followed by a dollar sign, the
    opposite order a backslash followed by the dollar placeholder. *)
Lemma escape_orders_differ :
  escapeInOrder [js "\\"; js "\$"] (js "\\$") []
  = OK ([240; 339; 176; 8364; 36]%N, []) /\
  escapeInOrder [js "\$"; js "\\"] (js "\\$") []
  = OK ([92; 240; 339; 176; 402]%N, []) /\
  escapeInOrder [js "\\"; js "\$"] (js "\\$") []
  <> escapeInOrder [js "\$"; js "\\"] (js "\\$") [].
Proof.
  split; [vm_compute; reflexivity|].
  split; [vm_compute; reflexivity|].
  vm_compute. discriminate.
Qed.

(** ** Rendering *)

Lemma replaceScan_rel (alts : list jsstring) (f : jsstring -> jsstring)
      (P : jsstring -> jsstring -> Prop) :
  Forall (fun alt => alt <> []) alts ->
  P [] [] ->
  (forall alt t out,
      In alt alts -> firstMatching alts (alt ++ t) = Some alt ->
      P t out -> P (alt ++ t) (f alt ++ out)) ->
  (forall c t out,
      firstMatching alts (c :: t) = None -> P t out -> P (c :: t) (c :: out)) ->
  forall s, P s (replaceScan alts f 0 s).
Proof.
  intros Hne Hnil Hhit Hmiss s.
  remember (length s) as n eqn:Hn.
  revert s Hn. induction n as [n IH] using lt_wf_ind. intros s ->.
  destruct s as [|c t]; [exact Hnil|].
  destruct (firstMatching alts (c :: t)) as [alt|] eqn:E.
  - pose proof E as E'. unfold firstMatching in E'.
    apply find_some in E' as [Hin Hs].
    rewrite Forall_forall in Hne. pose proof (Hne _ Hin) as Halt.
    rewrite (replaceScan_hit alts f alt (c :: t) Halt E).
    apply startsWith_split in Hs.
    rewrite Hs at 1. apply Hhit; auto; [now rewrite <- Hs|].
    apply (IH (length (skipn (length alt) (c :: t)))); [|reflexivity].
    rewrite length_skipn. destruct alt; [contradiction|]. simpl. lia.
  - rewrite (replaceScan_miss alts f c t E).
    apply Hmiss; auto. apply (IH (length t)); [simpl; lia|reflexivity].
Qed.

Lemma convertNewlines_flat_map (s : jsstring) :
  convertNewlinesToLatexBreaks s = flat_map breakOrKeep s.
Proof.
  unfold convertNewlinesToLatexBreaks, replaceGlobal. simpl (firstMatching _ []).
  rewrite app_nil_r.
  apply (replaceScan_rel [[NEWLINE]] (fun _ => LATEX_BREAK)
           (fun s out => out = flat_map breakOrKeep s)).
  - repeat constructor. discriminate.
  - reflexivity.
  - intros alt t out [<-|[]] _ ->. reflexivity.
  - intros c t out H ->. cbn [flat_map]. unfold breakOrKeep.
    destruct (N.eqb_spec c NEWLINE) as [->|Hc]; [|reflexivity].
    discriminate H.
Qed.

Lemma revert_keeps_newlines (s : jsstring) :
  count_occ N.eq_dec (revertEscapedCharacters s) NEWLINE
  = count_occ N.eq_dec s NEWLINE.
Proof.
  unfold revertEscapedCharacters, replaceGlobal. simpl (firstMatching _ []).
  rewrite app_nil_r.
  apply (replaceScan_rel escapedSequences (replacer mathUnEscapes)
           (fun s out => count_occ N.eq_dec out NEWLINE
                         = count_occ N.eq_dec s NEWLINE)).
  - repeat constructor; discriminate.
  - reflexivity.
  - intros alt t out Hin _ IH. rewrite !count_occ_app, IH.
    destruct Hin as [<-|[<-|[]]]; reflexivity.
  - intros c t out _ IH. simpl. rewrite IH. reflexivity.
Qed.

Lemma forEach_cons {A S : Type} (body : S -> A -> M S) (x : A) (l : list A)
      (s : S) (calls : list EngineCall) :
  forEach body (x :: l) s calls
  = match body s x calls with
    | OK (s', calls') => forEach body l s' calls'
    | Throw e => Throw e
    end.
Proof. reflexivity. Qed.

Lemma render_text_segment (engine : jsstring -> bool -> jsstring + jsstring)
      (out : jsstring) (seg : ParsedSegment) (calls : list EngineCall) :
  type seg = text ->
  renderSegment engine out seg calls
  = OK (out ++ unescapeCharacters (convertNewlinesToLatexBreaks (content seg)),
        calls).
Proof. intros H. unfold renderSegment. now rewrite H. Qed.

Lemma render_math_segment (engine : jsstring -> bool -> jsstring + jsstring)
      (out : jsstring) (seg : ParsedSegment) (calls : list EngineCall)
      (markup : jsstring) :
  type seg = math ->
  engine (revertEscapedCharacters (content seg)) (display seg) = inl markup ->
  renderSegment engine out seg calls
  = OK (out ++ relabelKatexError markup,
        calls ++ [(revertEscapedCharacters (content seg), display seg)]).
Proof.
  intros H E. unfold renderSegment, bind, callEngine. now rewrite H, E.
Qed.

Lemma renderMath_unfold (engine : jsstring -> bool -> jsstring + jsstring)
      (input : jsstring) (calls : list EngineCall) :
  renderMath engine input calls
  = forEach (renderSegment engine)
      (parseDelimiters
         (replaceAll (replaceAll (cleanInput input) (js "\\") BACKSLASH_PLACEHOLDER)
                     (js "\$") DOLLAR_PLACEHOLDER))
      [] calls.
Proof. reflexivity. Qed.

Lemma forEach_renderSegment_returns
      (engine : jsstring -> bool -> jsstring + jsstring) :
  (forall content displayMode, exists markup, engine content displayMode = inl markup) ->
  forall segments out calls,
  exists out' calls',
    forEach (renderSegment engine) segments out calls = OK (out', calls').
Proof.
  intros Hengine. induction segments as [|seg segments IH]; intros out calls.
  - now exists out, calls.
  - rewrite forEach_cons. destruct (type seg) eqn:T.
    + rewrite render_text_segment by exact T. apply IH.
    + destruct (Hengine (revertEscapedCharacters (content seg)) (display seg))
        as [markup E].
      rewrite (render_math_segment engine out seg calls markup T E). apply IH.
Qed.

Lemma forEach_renderSegment_throws
      (engine : jsstring -> bool -> jsstring + jsstring) :
  forall segments out calls e,
    forEach (renderSegment engine) segments out calls = Throw e ->
    exists payload, e = EngineException payload.
Proof.
  induction segments as [|seg segments IH]; intros out calls e H.
  - discriminate.
  - rewrite forEach_cons in H. destruct (type seg) eqn:T.
    + rewrite render_text_segment in H by exact T. now apply IH in H.
    + destruct (engine (revertEscapedCharacters (content seg)) (display seg))
        as [markup|payload] eqn:E.
      * rewrite (render_math_segment engine out seg calls markup T E) in H.
        now apply IH in H.
      * unfold renderSegment, bind, callEngine in H. rewrite T, E in H.
        injection H as <-. now exists payload.
Qed.

(** C3: with an engine that does not throw, [renderMath] returns a string
    for every input.  The two sequences it passes to
    [replacePredefinedEscapeSequences] are keys of [escapes], the scanning
    loops of the six delimiters stop within their fuel, and whatever the
    engine does the only exception that can leave [renderMath] is the
    engine's own. *)
Theorem renderMath_returns
        (engine : jsstring -> bool -> jsstring + jsstring)
        (Hengine : forall content displayMode,
            exists markup, engine content displayMode = inl markup)
        (input : jsstring) :
  (exists out calls, renderMath engine input [] = OK (out, calls)) /\
  Forall (fun seq => exists placeholder, lookup escapes seq = Some placeholder)
         escapeSequences /\
  (forall d s, In d delimiters -> execLoop (S (length s)) d s 0 <> None) /\
  (forall anyEngine e,
      renderMath anyEngine input [] = Throw e ->
      exists payload, e = EngineException payload).
Proof.
  repeat split.
  - rewrite renderMath_unfold. now apply forEach_renderSegment_returns.
  - repeat constructor; eexists; reflexivity.
  - intros d s Hd. apply execLoop_fuel; [now apply delimiters_nonEmpty|lia].
  - intros anyEngine e H. rewrite renderMath_unfold in H.
    now apply forEach_renderSegment_throws in H.
Qed.

Lemma renderMath_returns_witness :
  (forall content displayMode,
      exists markup, echoRenderToString content displayMode = inl markup) /\
  exists out calls,
    renderMath echoRenderToString (js "Let $x=5$.") [] = OK (out, calls).
Proof.
  assert (H : forall content displayMode,
             exists markup, echoRenderToString content displayMode = inl markup)
    by (intros content displayMode; exists content; reflexivity).
  split; [exact H|].
  apply (proj1 (renderMath_returns echoRenderToString H (js "Let $x=5$."))).
Defined.

(** C6: backslash, dollar, 5 renders as dollar, 5 and the engine is not
    called, whatever the engine is; the escaped input is one text segment. *)
Theorem escaped_dollar_round_trip
        (engine : jsstring -> bool -> jsstring + jsstring) :
  renderMath engine (js "\$5") [] = OK (js "$5", []) /\
  parseDelimiters (DOLLAR_PLACEHOLDER ++ js "5")
  = [textSegment (DOLLAR_PLACEHOLDER ++ js "5")].
Proof. split; vm_compute; reflexivity. Qed.

(** C7 (as amended): the newline conversion replaces every newline by
    space, four backslashes, space and keeps every other code unit; a text
    segment is converted first and unescaped second; a math segment goes to
    the engine after placeholder reversion only, which keeps its newlines;
    on the example input the one newline outside the math span becomes a
    break token and the newline inside it reaches the engine unchanged. *)
Theorem newline_conversion_text_only :
  (forall s, convertNewlinesToLatexBreaks s = flat_map breakOrKeep s) /\
  (forall engine out seg calls,
      type seg = text ->
      renderSegment engine out seg calls
      = OK (out ++ unescapeCharacters (convertNewlinesToLatexBreaks (content seg)),
            calls)) /\
  (forall engine out seg calls markup,
      type seg = math ->
      engine (revertEscapedCharacters (content seg)) (display seg) = inl markup ->
      renderSegment engine out seg calls
      = OK (out ++ relabelKatexError markup,
            calls ++ [(revertEscapedCharacters (content seg), display seg)])) /\
  (forall s, count_occ N.eq_dec (revertEscapedCharacters s) NEWLINE
             = count_occ N.eq_dec s NEWLINE) /\
  (forall engine markup,
      engine (js "x" ++ [NEWLINE] ++ js "y") false = inl markup ->
      renderMath engine newlineExample []
      = OK (js "a" ++ LATEX_BREAK ++ js "b " ++ relabelKatexError markup ++ js " c",
            [(js "x" ++ [NEWLINE] ++ js "y", false)])).
Proof.
  split; [exact convertNewlines_flat_map|].
  split; [exact render_text_segment|].
  split; [exact render_math_segment|].
  split; [exact revert_keeps_newlines|].
  intros engine markup H. rewrite renderMath_unfold.
  set (seg1 := textSegment (js "a" ++ [NEWLINE] ++ js "b ")).
  set (seg2 := {| type := math; display := false;
                  content := js "x" ++ [NEWLINE] ++ js "y" |}).
  set (seg3 := textSegment (js " c")).
  assert (Hp : parseDelimiters
                 (replaceAll
                    (replaceAll (cleanInput newlineExample) (js "\\")
                       BACKSLASH_PLACEHOLDER)
                    (js "\$") DOLLAR_PLACEHOLDER)
               = [seg1; seg2; seg3]) by (vm_compute; reflexivity).
  rewrite Hp.
  rewrite forEach_cons, (render_text_segment engine [] seg1 []) by reflexivity.
  rewrite forEach_cons, (render_math_segment engine _ seg2 [] markup)
    by (reflexivity || exact H).
  rewrite forEach_cons, (render_text_segment engine _ seg3 _) by reflexivity.
  cbn [forEach ret]. f_equal. f_equal.
  replace (unescapeCharacters (convertNewlinesToLatexBreaks (content seg1)))
    with (js "a" ++ LATEX_BREAK ++ js "b ") by (vm_compute; reflexivity).
  replace (unescapeCharacters (convertNewlinesToLatexBreaks (content seg3)))
    with (js " c") by (vm_compute; reflexivity).
  now rewrite <- !app_assoc.
Qed.

Lemma newline_conversion_text_only_witness :
  let markup := js "<span class=" ++ [QUOTE] ++ js "katex " ++ [QUOTE] ++ js ">"
                ++ js "x" ++ [NEWLINE] ++ js "y" ++ js "</span>" in
  mockRenderToString (js "x" ++ [NEWLINE] ++ js "y") false = inl markup /\
  renderMath mockRenderToString newlineExample []
  = OK (js "a" ++ LATEX_BREAK ++ js "b " ++ relabelKatexError markup ++ js " c",
        [(js "x" ++ [NEWLINE] ++ js "y", false)]).
Proof.
  intros markup.
  assert (H : mockRenderToString (js "x" ++ [NEWLINE] ++ js "y") false = inl markup)
    by (vm_compute; reflexivity).
  split; [exact H|].
  apply (proj2 (proj2 (proj2 (proj2 newline_conversion_text_only)))
           mockRenderToString markup H).
Defined.

(** C7 (as stated) fails on its example: the input has one newline outside
    the math span, not two, and the output has one break token. *)
Lemma newline_example_one_outer_newline :
  newlinesOutsideMath (parseDelimiters newlineExample) = 1 /\
  newlinesOutsideMath (parseDelimiters newlineExample) <> 2 /\
  renderMath echoRenderToString newlineExample []
  = OK (js "a" ++ LATEX_BREAK ++ js "b x" ++ [NEWLINE] ++ js "y c",
        [(js "x" ++ [NEWLINE] ++ js "y", false)]) /\
  occurrences LATEX_BREAK
    (js "a" ++ LATEX_BREAK ++ js "b x" ++ [NEWLINE] ++ js "y c") <> 2.
Proof.
  split; [vm_compute; reflexivity|].
  split; [vm_compute; discriminate|].
  split; [vm_compute; reflexivity|].
  vm_compute. discriminate.
Qed.

(** C10: two dollar signs parse as one inline math segment with empty
    content; every bracket-style delimiter matches an empty body; the empty
    content is what the engine receives. *)
Theorem empty_body_is_math :
  parseDelimiters (js "$$")
  = [ {| type := math; display := false; content := [] |} ] /\
  (forall d,
      In d delimiters -> d_customRegex d = false ->
      parseDelimiters (d_start d ++ d_end d)
      = [ {| type := math; display := isDisplay d; content := [] |} ]) /\
  (forall engine markup,
      engine [] false = inl markup ->
      renderMath engine (js "$$") []
      = OK (relabelKatexError markup, [([], false)])).
Proof.
  split; [vm_compute; reflexivity|]. split.
  - intros d Hd Hc. simpl in Hd.
    repeat (destruct Hd as [<-|Hd];
            [first [discriminate Hc | vm_compute; reflexivity]|]).
    contradiction.
  - intros engine markup H. rewrite renderMath_unfold.
    set (seg := {| type := math; display := false; content := [] |}).
    assert (Hp : parseDelimiters
                   (replaceAll
                      (replaceAll (cleanInput (js "$$")) (js "\\")
                         BACKSLASH_PLACEHOLDER)
                      (js "\$") DOLLAR_PLACEHOLDER)
                 = [seg]) by (vm_compute; reflexivity).
    rewrite Hp.
    rewrite forEach_cons, (render_math_segment engine _ seg [] markup)
      by (reflexivity || exact H).
    reflexivity.
Qed.

Lemma empty_body_is_math_witness :
  let markup := js "<span class=" ++ [QUOTE] ++ js "katex " ++ [QUOTE]
                ++ js "></span>" in
  mockRenderToString [] false = inl markup /\
  renderMath mockRenderToString (js "$$") []
  = OK (relabelKatexError markup, [([], false)]).
Proof.
  intros markup.
  assert (H : mockRenderToString [] false = inl markup)
    by (vm_compute; reflexivity).
  split; [exact H|].
  apply (proj2 (proj2 empty_body_is_math) mockRenderToString markup H).
Defined.

(** * Further properties of the code *)

(** ** More facts about the global replace *)

Lemma replaceGlobal_scan (alts : list jsstring) (f : jsstring -> jsstring)
      (s : jsstring) :
  Forall (fun alt => alt <> []) alts ->
  replaceGlobal alts f s = replaceScan alts f 0 s.
Proof.
  intros H. unfold replaceGlobal.
  destruct (firstMatching alts []) as [alt|] eqn:E; [|apply app_nil_r].
  unfold firstMatching in E. apply find_some in E as [Hin Hs].
  rewrite Forall_forall in H. specialize (H _ Hin).
  destruct alt; [contradiction|discriminate].
Qed.

Lemma indexOf_app_start (tok t : jsstring) : indexOf tok (tok ++ t) = Some 0.
Proof.
  destruct (tok ++ t) eqn:E; simpl; rewrite <- E, startsWith_app; reflexivity.
Qed.

(** A string in which no alternative occurs is left as it is. *)
Lemma replaceGlobal_absent (alts : list jsstring) (f : jsstring -> jsstring) :
  Forall (fun alt => alt <> []) alts ->
  forall s,
    Forall (fun alt => indexOf alt s = None) alts ->
    replaceGlobal alts f s = s.
Proof.
  intros Hne s. rewrite replaceGlobal_scan by exact Hne.
  apply (replaceScan_rel alts f
           (fun s out => Forall (fun alt => indexOf alt s = None) alts -> out = s));
    auto.
  - intros alt t out Hin _ _ H. rewrite Forall_forall in H.
    specialize (H _ Hin). now rewrite indexOf_app_start in H.
  - intros c t out _ IH H. f_equal. apply IH.
    eapply Forall_impl; [|exact H].
    intros alt Halt. now apply indexOf_None_cons in Halt.
Qed.

Lemma indexOf_head_absent (a : N) (tok s : jsstring) :
  ~ In a s -> indexOf (a :: tok) s = None.
Proof.
  induction s as [|c s IH]; intros H; [reflexivity|].
  cbn [indexOf]. rewrite startsWith_head by (intros ->; apply H; now left).
  rewrite IH; [reflexivity|]. intros Hin. apply H. now right.
Qed.

Lemma replaceAll_absent (s pat rep : jsstring) :
  pat <> [] -> indexOf pat s = None -> replaceAll s pat rep = s.
Proof.
  intros Hne H. unfold replaceAll. apply replaceGlobal_absent; auto.
Qed.

(** ** escapeRegex *)

Lemma firstMatching_singletons (l : jsstring) (c : N) (t : jsstring) :
  firstMatching (map (fun x => [x]) l) (c :: t)
  = option_map (fun x => [x]) (find (fun x => (x =? c)%N) l).
Proof.
  unfold firstMatching. induction l as [|x l IH]; [reflexivity|].
  simpl. rewrite andb_true_r. destruct (x =? c)%N; [reflexivity|exact IH].
Qed.

Lemma find_isRegexSpecial (c : N) :
  find (fun x => (x =? c)%N) regexSpecials
  = if isRegexSpecial c then Some c else None.
Proof.
  unfold isRegexSpecial.
  induction regexSpecials as [|x l IH]; [reflexivity|].
  simpl. rewrite (N.eqb_sym c x).
  destruct (N.eqb_spec x c) as [->|Hx]; [reflexivity|exact IH].
Qed.

Lemma escapeRegex_flat_map (s : jsstring) :
  escapeRegex s
  = flat_map (fun c => if isRegexSpecial c then [BACKSLASH; c] else [c]) s.
Proof.
  unfold escapeRegex.
  assert (Hne : Forall (fun alt => alt <> [])
                       (map (fun c : N => [c]) regexSpecials)).
  { apply Forall_forall. intros alt H. apply in_map_iff in H as (x & <- & _).
    discriminate. }
  rewrite replaceGlobal_scan by exact Hne.
  apply (replaceScan_rel _ _
           (fun s out =>
              out = flat_map
                      (fun c => if isRegexSpecial c then [BACKSLASH; c] else [c])
                      s)); auto.
  - intros alt t out Hin H ->.
    apply in_map_iff in Hin as (x & <- & Hx).
    cbn [app] in *. rewrite firstMatching_singletons, find_isRegexSpecial in H.
    cbn [flat_map]. destruct (isRegexSpecial x); [reflexivity|discriminate].
  - intros c t out H ->.
    rewrite firstMatching_singletons, find_isRegexSpecial in H.
    cbn [flat_map]. destruct (isRegexSpecial c); [discriminate|reflexivity].
Qed.

(** X1: read as a pattern, the result of [escapeRegex] spells the original
    string literally, whatever the string. *)
Theorem escapeRegex_reads_back (s : jsstring) :
  readLiteral (escapeRegex s) = s.
Proof.
  rewrite escapeRegex_flat_map.
  induction s as [|c s IH]; [reflexivity|].
  cbn [flat_map]. destruct (isRegexSpecial c) eqn:E.
  - cbn [app readLiteral]. rewrite N.eqb_refl. now rewrite IH.
  - cbn [app readLiteral].
    destruct (N.eqb_spec c BACKSLASH) as [->|Hc]; [discriminate E|].
    now rewrite IH.
Qed.

Lemma escapeRegex_length (s : jsstring) :
  length (escapeRegex s) = length s + length (filter isRegexSpecial s).
Proof.
  rewrite escapeRegex_flat_map.
  induction s as [|c s IH]; [reflexivity|].
  cbn [flat_map filter]. rewrite length_app, IH.
  destruct (isRegexSpecial c); simpl; lia.
Qed.

(** X2: [escapeRegex] leaves a string unchanged exactly when the string has
    none of the fourteen special characters; otherwise the result is longer
    by one backslash per special character. *)
Theorem escapeRegex_fixed_iff (s : jsstring) :
  length (escapeRegex s) = length s + length (filter isRegexSpecial s) /\
  (escapeRegex s = s <-> forallb (fun c => negb (isRegexSpecial c)) s = true).
Proof.
  split; [apply escapeRegex_length|]. split.
  - intros H. pose proof (escapeRegex_length s) as Hl. rewrite H in Hl.
    assert (Hf : filter isRegexSpecial s = [])
      by (apply length_zero_iff_nil; lia).
    apply forallb_forall. intros c Hc.
    destruct (isRegexSpecial c) eqn:E; [|reflexivity].
    assert (Hin : In c (filter isRegexSpecial s)) by (apply filter_In; auto).
    rewrite Hf in Hin. contradiction.
  - intros H. rewrite escapeRegex_flat_map. rewrite forallb_forall in H.
    induction s as [|c s IH]; [reflexivity|].
    cbn [flat_map]. pose proof (H c (or_introl eq_refl)) as Hc.
    destruct (isRegexSpecial c); [discriminate|].
    cbn [app]. f_equal. apply IH. intros x Hx. apply H. now right.
Qed.

(** ** replacePredefinedEscapeSequences *)

Lemma lookupInherited_None (l : list (jsstring * Inherited)) (k : jsstring) :
  ~ In k (map fst l) -> lookupInherited l k = None.
Proof.
  induction l as [|[k' v] l IH]; intros H; [reflexivity|].
  cbn [lookupInherited]. destruct (jsstring_eqb k' k) eqn:E.
  - apply jsstring_eqb_eq in E. exfalso. apply H. now left.
  - apply IH. intros Hin. apply H. now right.
Qed.

Lemma inherited_key (k : jsstring) :
  In k objectPrototypeKeys ->
  lookup escapes k = None /\
  exists value, lookupInherited objectPrototype k = Some value.
Proof.
  intros H. cbn [objectPrototypeKeys objectPrototype map fst In] in H.
  repeat (destruct H as [<-|H]; [split; [reflexivity|eexists; reflexivity]|]).
  contradiction.
Qed.

(** X3: [replacePredefinedEscapeSequences] throws the not-found error,
    naming the sequence, for every sequence that is neither
    backslash-backslash, nor backslash-dollar, nor the name of a property
    that a plain object inherits; for such a name it never throws the
    not-found error; for the two keys it returns the input with every
    occurrence replaced by the placeholder. *)
Theorem replacePredefined_throws_iff (input sequenceToReplace : jsstring) :
  (sequenceToReplace <> js "\\" -> sequenceToReplace <> js "\$" ->
   ~ In sequenceToReplace objectPrototypeKeys ->
   replacePredefinedEscapeSequences input sequenceToReplace
   = Throw (EscapeSequenceNotFound sequenceToReplace)) /\
  (In sequenceToReplace objectPrototypeKeys ->
   forall missing,
     replacePredefinedEscapeSequences input sequenceToReplace
     <> Throw (EscapeSequenceNotFound missing)) /\
  replacePredefinedEscapeSequences input (js "\\")
  = OK (replaceAll input (js "\\") BACKSLASH_PLACEHOLDER) /\
  replacePredefinedEscapeSequences input (js "\$")
  = OK (replaceAll input (js "\$") DOLLAR_PLACEHOLDER).
Proof.
  split; [|split; [|split; reflexivity]].
  - intros H1 H2 H3. unfold replacePredefinedEscapeSequences, escapes.
    cbn [lookup].
    destruct (jsstring_eqb [BACKSLASH; BACKSLASH] sequenceToReplace) eqn:E1.
    { apply jsstring_eqb_eq in E1. now subst. }
    destruct (jsstring_eqb [BACKSLASH; DOLLAR] sequenceToReplace) eqn:E2.
    { apply jsstring_eqb_eq in E2. now subst. }
    now rewrite (lookupInherited_None objectPrototype sequenceToReplace H3).
  - intros H missing. unfold replacePredefinedEscapeSequences.
    destruct (inherited_key sequenceToReplace H) as [-> [value ->]].
    destruct value; cbn [replaceAllInherited]; try discriminate.
    destruct (indexOf sequenceToReplace input); discriminate.
Qed.

Lemma replacePredefined_throws_iff_witness :
  js "\unknown" <> js "\\" /\ js "\unknown" <> js "\$" /\
  ~ In (js "\unknown") objectPrototypeKeys /\
  replacePredefinedEscapeSequences (js "Some text") (js "\unknown")
  = Throw (EscapeSequenceNotFound (js "\unknown")).
Proof.
  assert (H1 : js "\unknown" <> js "\\") by discriminate.
  assert (H2 : js "\unknown" <> js "\$") by discriminate.
  assert (H3 : ~ In (js "\unknown") objectPrototypeKeys).
  { intros H. vm_compute in H.
    repeat (destruct H as [H|H]; [discriminate H|]). exact H. }
  split; [exact H1|]. split; [exact H2|]. split; [exact H3|].
  exact (proj1 (replacePredefined_throws_iff (js "Some text") (js "\unknown"))
           H1 H2 H3).
Defined.

(** ** What the escape step leaves behind *)

Lemma indexOf_app_clear (x : N) (tok rep out : jsstring) :
  ~ In x rep -> indexOf (x :: tok) out = None ->
  indexOf (x :: tok) (rep ++ out) = None.
Proof.
  intros Hx Hout. induction rep as [|r rep IH]; [exact Hout|].
  cbn [app indexOf].
  rewrite startsWith_head by (intros ->; apply Hx; now left).
  rewrite IH; [reflexivity|]. intros H. apply Hx. now right.
Qed.

(** Replacing a two-unit pattern by a non-empty text that has neither [x]
    nor [y] leaves no occurrence of [x; y], provided the input has such
    occurrences only where the pattern itself occurs. *)
Lemma replaceAll_clear (a b x y : N) (rep : jsstring) :
  rep <> [] -> ~ In x rep -> ~ In y rep ->
  forall u,
    (forall j, startsWith [x; y] (skipn j u) = true ->
               startsWith [a; b] (skipn j u) = true) ->
    indexOf [x; y] (replaceAll u [a; b] rep) = None.
Proof.
  intros Hrep Hx Hy u. rewrite replaceAll_scan by discriminate.
  enough (H : (forall z, hd_error (replaceScan [[a; b]] (fun _ => rep) 0 u) = Some z ->
                         In z rep \/ hd_error u = Some z) /\
              ((forall j, startsWith [x; y] (skipn j u) = true ->
                          startsWith [a; b] (skipn j u) = true) ->
               indexOf [x; y] (replaceScan [[a; b]] (fun _ => rep) 0 u) = None))
    by apply H.
  apply (replaceScan_rel [[a; b]] (fun _ => rep)
           (fun u out =>
              (forall z, hd_error out = Some z -> In z rep \/ hd_error u = Some z) /\
              ((forall j, startsWith [x; y] (skipn j u) = true ->
                          startsWith [a; b] (skipn j u) = true) ->
               indexOf [x; y] out = None))).
  - repeat constructor. discriminate.
  - split; [discriminate|reflexivity].
  - intros alt t out [<-|[]] _ [_ IH]. split.
    + intros z Hz. left. destruct rep as [|r rep']; [contradiction|].
      injection Hz as <-. now left.
    + intros Hcond. apply indexOf_app_clear; [exact Hx|].
      apply IH. intros j Hj. apply (Hcond (S (S j))). exact Hj.
  - intros c t out Hmiss [IHhd IH]. split.
    + intros z Hz. now right.
    + intros Hcond.
      assert (Hout : indexOf [x; y] out = None).
      { apply IH. intros j Hj. apply (Hcond (S j)). exact Hj. }
      cbn [indexOf]. rewrite Hout.
      destruct (startsWith [x; y] (c :: out)) eqn:E; [|reflexivity].
      exfalso. destruct out as [|o out']; [simpl in E; now rewrite andb_false_r in E|].
      simpl in E. apply andb_prop in E as [E1 E2].
      apply andb_prop in E2 as [E2 _].
      apply N.eqb_eq in E1, E2. subst c o.
      destruct (IHhd y eq_refl) as [Hin|Hhd]; [contradiction|].
      destruct t as [|t0 t']; [discriminate|]. injection Hhd as ->.
      assert (Hab : startsWith [a; b] (x :: y :: t') = true).
      { apply (Hcond 0). simpl. now rewrite !N.eqb_refl. }
      unfold firstMatching in Hmiss. simpl in Hmiss. simpl in Hab.
      rewrite Hab in Hmiss. discriminate.
Qed.

Lemma escapeInput_value (input : jsstring) (calls : list EngineCall) :
  escapeInput input calls
  = OK (replaceAll (replaceAll input (js "\\") BACKSLASH_PLACEHOLDER)
                   (js "\$") DOLLAR_PLACEHOLDER, calls).
Proof. reflexivity. Qed.

Lemma placeholders_plain :
  ~ In BACKSLASH BACKSLASH_PLACEHOLDER /\ ~ In DOLLAR BACKSLASH_PLACEHOLDER /\
  ~ In BACKSLASH DOLLAR_PLACEHOLDER /\ ~ In DOLLAR DOLLAR_PLACEHOLDER.
Proof.
  repeat split; intros H; cbn in H;
    repeat (destruct H as [H|H]; [discriminate H|]); exact H.
Qed.

Lemma escaped_clear (input : jsstring) :
  let escaped :=
    replaceAll (replaceAll input (js "\\") BACKSLASH_PLACEHOLDER)
               (js "\$") DOLLAR_PLACEHOLDER in
  indexOf (js "\\") escaped = None /\ indexOf (js "\$") escaped = None.
Proof.
  destruct placeholders_plain as (H1 & H2 & H3 & H4).
  split.
  - apply (replaceAll_clear BACKSLASH DOLLAR BACKSLASH BACKSLASH);
      [discriminate|exact H3|exact H3|].
    intros j Hj. exfalso.
    assert (Hnone : indexOf [BACKSLASH; BACKSLASH]
                      (replaceAll input (js "\\") BACKSLASH_PLACEHOLDER) = None).
    { apply (replaceAll_clear BACKSLASH BACKSLASH BACKSLASH BACKSLASH);
        [discriminate|exact H1|exact H1|auto]. }
    rewrite (indexOf_None _ _ j Hnone) in Hj. discriminate.
  - apply (replaceAll_clear BACKSLASH DOLLAR BACKSLASH DOLLAR);
      [discriminate|exact H3|exact H4|auto].
Qed.

(** X4: the text that the escape step of [renderMath] hands to
    [parseDelimiters] contains neither backslash-backslash nor
    backslash-dollar: no dollar sign that is left is preceded by a
    backslash. *)
Theorem escapeInput_leaves_no_escape
        (input escaped : jsstring) (calls calls' : list EngineCall) :
  escapeInput input calls = OK (escaped, calls') ->
  indexOf (js "\\") escaped = None /\ indexOf (js "\$") escaped = None.
Proof.
  rewrite escapeInput_value. intros H. injection H as <- _.
  apply escaped_clear.
Qed.

Lemma escapeInput_leaves_no_escape_witness :
  escapeInput (js "a \\\$ b \\$ c \$") []
  = OK (js "a " ++ BACKSLASH_PLACEHOLDER ++ DOLLAR_PLACEHOLDER ++ js " b "
        ++ BACKSLASH_PLACEHOLDER ++ js "$ c " ++ DOLLAR_PLACEHOLDER, []) /\
  indexOf (js "\\")
    (js "a " ++ BACKSLASH_PLACEHOLDER ++ DOLLAR_PLACEHOLDER ++ js " b "
     ++ BACKSLASH_PLACEHOLDER ++ js "$ c " ++ DOLLAR_PLACEHOLDER) = None /\
  indexOf (js "\$")
    (js "a " ++ BACKSLASH_PLACEHOLDER ++ DOLLAR_PLACEHOLDER ++ js " b "
     ++ BACKSLASH_PLACEHOLDER ++ js "$ c " ++ DOLLAR_PLACEHOLDER) = None.
Proof.
  assert (H : escapeInput (js "a \\\$ b \\$ c \$") []
              = OK (js "a " ++ BACKSLASH_PLACEHOLDER ++ DOLLAR_PLACEHOLDER
                    ++ js " b " ++ BACKSLASH_PLACEHOLDER ++ js "$ c "
                    ++ DOLLAR_PLACEHOLDER, []))
    by (vm_compute; reflexivity).
  split; [exact H|].
  exact (escapeInput_leaves_no_escape _ _ _ _ H).
Defined.

(** ** The sanitizer *)

(** X5: [cleanInput] returns its input unchanged when neither placeholder
    occurs in it. *)
Theorem cleanInput_unchanged (input : jsstring) :
  indexOf BACKSLASH_PLACEHOLDER input = None ->
  indexOf DOLLAR_PLACEHOLDER input = None ->
  cleanInput input = input.
Proof.
  intros H1 H2. unfold cleanInput. apply replaceGlobal_absent.
  - repeat constructor; discriminate.
  - repeat constructor; assumption.
Qed.

Lemma cleanInput_unchanged_witness :
  indexOf BACKSLASH_PLACEHOLDER (js "Let $x=5$.") = None /\
  indexOf DOLLAR_PLACEHOLDER (js "Let $x=5$.") = None /\
  cleanInput (js "Let $x=5$.") = js "Let $x=5$.".
Proof.
  assert (H1 : indexOf BACKSLASH_PLACEHOLDER (js "Let $x=5$.") = None)
    by (vm_compute; reflexivity).
  assert (H2 : indexOf DOLLAR_PLACEHOLDER (js "Let $x=5$.") = None)
    by (vm_compute; reflexivity).
  split; [exact H1|]. split; [exact H2|].
  exact (cleanInput_unchanged (js "Let $x=5$.") H1 H2).
Defined.

Lemma leadAlwaysPlaceholder_skip (alt t : jsstring) :
  In alt escapedSequences ->
  leadAlwaysPlaceholder (alt ++ t) = true -> leadAlwaysPlaceholder t = true.
Proof.
  intros [<-|[<-|[]]] H; cbn in H; exact H.
Qed.

(** X6: when the first code unit of the placeholders occurs in the input
    only as the beginning of a placeholder, the cleaned input does not
    contain that code unit, hence no placeholder.  Without the condition a
    placeholder can survive: removing the inner one of two nested
    placeholders joins the outer halves. *)
Theorem cleanInput_removes_placeholders :
  (forall input,
      leadAlwaysPlaceholder input = true ->
      ~ In PLACEHOLDER_LEAD (cleanInput input) /\
      indexOf BACKSLASH_PLACEHOLDER (cleanInput input) = None /\
      indexOf DOLLAR_PLACEHOLDER (cleanInput input) = None) /\
  cleanInput [240; 339; 240; 339; 176; 8364; 176; 8364]%N
  = [240; 339; 176; 8364]%N.
Proof.
  split; [|vm_compute; reflexivity].
  intros input H.
  assert (Hlead : ~ In PLACEHOLDER_LEAD (cleanInput input)).
  { revert H. unfold cleanInput. rewrite replaceGlobal_scan
      by (repeat constructor; discriminate).
    apply (replaceScan_rel escapedSequences (fun _ => [])
             (fun s out => leadAlwaysPlaceholder s = true ->
                           ~ In PLACEHOLDER_LEAD out)).
    - repeat constructor; discriminate.
    - intros _ [].
    - intros alt t out Hin _ IH Hwf. cbn [app]. apply IH.
      now apply (leadAlwaysPlaceholder_skip alt).
    - intros c t out Hmiss IH Hwf. cbn [leadAlwaysPlaceholder] in Hwf.
      apply andb_prop in Hwf as [Hc Hwf].
      unfold firstMatching in Hmiss. cbn [escapedSequences escapes map snd find] in Hmiss.
      destruct (startsWith BACKSLASH_PLACEHOLDER (c :: t)); [discriminate|].
      destruct (startsWith DOLLAR_PLACEHOLDER (c :: t)); [discriminate|].
      destruct (N.eqb_spec c PLACEHOLDER_LEAD) as [->|Hne]; [discriminate|].
      intros [Heq|Hin]; [congruence|]. now apply IH. }
  split; [exact Hlead|].
  split; now apply indexOf_head_absent.
Qed.

Lemma cleanInput_removes_placeholders_witness :
  let input := js "a" ++ DOLLAR_PLACEHOLDER ++ js "$x$"
               ++ BACKSLASH_PLACEHOLDER ++ BACKSLASH_PLACEHOLDER in
  leadAlwaysPlaceholder input = true /\
  ~ In PLACEHOLDER_LEAD (cleanInput input) /\
  indexOf BACKSLASH_PLACEHOLDER (cleanInput input) = None /\
  indexOf DOLLAR_PLACEHOLDER (cleanInput input) = None.
Proof.
  intros input.
  assert (H : leadAlwaysPlaceholder input = true) by (vm_compute; reflexivity).
  split; [exact H|].
  exact (proj1 cleanInput_removes_placeholders input H).
Defined.

(** ** Reverting placeholders *)

Lemma escapedSequences_nonEmpty : Forall (fun alt => alt <> []) escapedSequences.
Proof. repeat constructor; discriminate. Qed.

Lemma placeholderScan_hit (f : jsstring -> jsstring) (alt t : jsstring) :
  In alt escapedSequences ->
  replaceGlobal escapedSequences f (alt ++ t)
  = f alt ++ replaceGlobal escapedSequences f t.
Proof.
  intros Hin. rewrite !replaceGlobal_scan by apply escapedSequences_nonEmpty.
  assert (Hne : alt <> []).
  { pose proof escapedSequences_nonEmpty as F. rewrite Forall_forall in F.
    now apply F. }
  rewrite (replaceScan_hit escapedSequences f alt (alt ++ t) Hne).
  - destruct Hin as [<-|[<-|[]]]; reflexivity.
  - destruct Hin as [<-|[<-|[]]]; reflexivity.
Qed.

Lemma placeholderScan_miss (f : jsstring -> jsstring) (c : N) (t : jsstring) :
  firstMatching escapedSequences (c :: t) = None ->
  replaceGlobal escapedSequences f (c :: t)
  = c :: replaceGlobal escapedSequences f t.
Proof.
  intros H. rewrite !replaceGlobal_scan by apply escapedSequences_nonEmpty.
  now apply replaceScan_miss.
Qed.

Lemma firstMatching_lead (c : N) (t : jsstring) :
  c <> PLACEHOLDER_LEAD -> firstMatching escapedSequences (c :: t) = None.
Proof.
  intros H. unfold firstMatching. cbn [escapedSequences escapes map snd find].
  unfold BACKSLASH_PLACEHOLDER, DOLLAR_PLACEHOLDER.
  now rewrite !startsWith_head by exact H.
Qed.

Lemma revert_after_backslash_escape (s : jsstring) :
  ~ In PLACEHOLDER_LEAD s ->
  revertEscapedCharacters (replaceAll s (js "\\") BACKSLASH_PLACEHOLDER) = s.
Proof.
  rewrite replaceAll_scan by discriminate.
  apply (replaceScan_rel [js "\\"] (fun _ => BACKSLASH_PLACEHOLDER)
           (fun s out => ~ In PLACEHOLDER_LEAD s ->
                         revertEscapedCharacters out = s)).
  - repeat constructor. discriminate.
  - reflexivity.
  - intros alt t out [<-|[]] _ IH H. unfold revertEscapedCharacters.
    rewrite placeholderScan_hit by (now left).
    fold (revertEscapedCharacters out). rewrite IH; [reflexivity|].
    intros Hin. apply H. apply in_or_app. now right.
  - intros c t out _ IH H. unfold revertEscapedCharacters.
    rewrite placeholderScan_miss.
    + fold (revertEscapedCharacters out). rewrite IH; [reflexivity|].
      intros Hin. apply H. now right.
    + apply firstMatching_lead. intros ->. apply H. now left.
Qed.

(** X7: math content written without backslash-dollar and without the
    placeholders' first code unit comes back from escaping followed by
    [revertEscapedCharacters] exactly as written; in particular every
    backslash-backslash reaches the engine as backslash-backslash. *)
Theorem escape_then_revert (s escaped : jsstring) (calls calls' : list EngineCall) :
  ~ In PLACEHOLDER_LEAD s ->
  indexOf (js "\$") s = None ->
  escapeInput s calls = OK (escaped, calls') ->
  revertEscapedCharacters escaped = s.
Proof.
  intros Hlead Hdollar. rewrite escapeInput_value. intros H. injection H as <- _.
  destruct placeholders_plain as (H1 & H2 & _).
  rewrite (replaceAll_absent _ (js "\$")); [|discriminate|].
  - now apply revert_after_backslash_escape.
  - apply (replaceAll_clear BACKSLASH BACKSLASH BACKSLASH DOLLAR);
      [discriminate|exact H1|exact H2|].
    intros j Hj. change [BACKSLASH; DOLLAR] with (js "\$") in Hj.
    rewrite (indexOf_None _ _ j Hdollar) in Hj. discriminate.
Qed.

Lemma escape_then_revert_witness :
  ~ In PLACEHOLDER_LEAD (js "\begin{pmatrix} a \\ b \end{pmatrix}") /\
  indexOf (js "\$") (js "\begin{pmatrix} a \\ b \end{pmatrix}") = None /\
  escapeInput (js "\begin{pmatrix} a \\ b \end{pmatrix}") []
  = OK (js "\begin{pmatrix} a " ++ BACKSLASH_PLACEHOLDER
        ++ js " b \end{pmatrix}", []) /\
  revertEscapedCharacters
    (js "\begin{pmatrix} a " ++ BACKSLASH_PLACEHOLDER ++ js " b \end{pmatrix}")
  = js "\begin{pmatrix} a \\ b \end{pmatrix}".
Proof.
  assert (H1 : ~ In PLACEHOLDER_LEAD (js "\begin{pmatrix} a \\ b \end{pmatrix}")).
  { intros H. vm_compute in H.
    repeat (destruct H as [H|H]; [discriminate H|]). exact H. }
  assert (H2 : indexOf (js "\$") (js "\begin{pmatrix} a \\ b \end{pmatrix}") = None)
    by (vm_compute; reflexivity).
  assert (H3 : escapeInput (js "\begin{pmatrix} a \\ b \end{pmatrix}") []
               = OK (js "\begin{pmatrix} a " ++ BACKSLASH_PLACEHOLDER
                     ++ js " b \end{pmatrix}", []))
    by (vm_compute; reflexivity).
  split; [exact H1|]. split; [exact H2|]. split; [exact H3|].
  exact (escape_then_revert _ _ _ _ H1 H2 H3).
Defined.

(** ** Newline conversion and unescaping *)

Lemma unescape_after_break (x : jsstring) :
  unescapeCharacters (LATEX_BREAK ++ x) = LATEX_BREAK ++ unescapeCharacters x.
Proof.
  unfold unescapeCharacters, LATEX_BREAK. cbn [js list_ascii_of_string map app].
  repeat (rewrite placeholderScan_miss
            by (apply firstMatching_lead; discriminate)).
  reflexivity.
Qed.

(** A pattern without space and without newline begins a converted text
    exactly when it begins the text itself. *)
Lemma startsWith_convert (p : jsstring) :
  Forall (fun a => a <> 32%N /\ a <> NEWLINE) p ->
  forall t, startsWith p (flat_map breakOrKeep t) = startsWith p t.
Proof.
  induction 1 as [|a p [Hs Hn] _ IH]; intros t; [reflexivity|].
  destruct t as [|c t]; [reflexivity|].
  cbn [flat_map]. unfold breakOrKeep at 1.
  destruct (N.eqb_spec c NEWLINE) as [->|Hc].
  - change (LATEX_BREAK ++ flat_map breakOrKeep t)
      with (32%N :: tl LATEX_BREAK ++ flat_map breakOrKeep t).
    now rewrite !startsWith_head by congruence.
  - cbn [app startsWith]. now rewrite IH.
Qed.

Lemma firstMatching_after_convert (c : N) (t : jsstring) :
  c <> NEWLINE ->
  firstMatching escapedSequences (c :: t) = None ->
  firstMatching escapedSequences (c :: flat_map breakOrKeep t) = None.
Proof.
  intros Hc H.
  assert (Hshape : c :: flat_map breakOrKeep t = flat_map breakOrKeep (c :: t)).
  { cbn [flat_map]. unfold breakOrKeep at 2.
    destruct (N.eqb_spec c NEWLINE); [contradiction|reflexivity]. }
  rewrite Hshape. unfold firstMatching in *.
  cbn [escapedSequences escapes map snd find] in *.
  rewrite !startsWith_convert
    by (repeat constructor; discriminate).
  exact H.
Qed.

(** X8: the two steps applied to a text segment commute: converting
    newlines and then unescaping gives the same text as unescaping and then
    converting newlines. *)
Theorem convert_unescape_commute (s : jsstring) :
  unescapeCharacters (convertNewlinesToLatexBreaks s)
  = convertNewlinesToLatexBreaks (unescapeCharacters s).
Proof.
  rewrite !convertNewlines_flat_map. unfold unescapeCharacters at 2.
  rewrite replaceGlobal_scan by apply escapedSequences_nonEmpty.
  apply (replaceScan_rel escapedSequences (replacer unEscapes)
           (fun s out => unescapeCharacters (flat_map breakOrKeep s)
                         = flat_map breakOrKeep out)).
  - apply escapedSequences_nonEmpty.
  - reflexivity.
  - intros alt t out Hin _ IH. rewrite !flat_map_app, <- IH.
    assert (Halt : flat_map breakOrKeep alt = alt)
      by (destruct Hin as [<-|[<-|[]]]; reflexivity).
    assert (Hf : flat_map breakOrKeep (replacer unEscapes alt)
                 = replacer unEscapes alt)
      by (destruct Hin as [<-|[<-|[]]]; reflexivity).
    rewrite Halt, Hf. unfold unescapeCharacters.
    now apply placeholderScan_hit.
  - intros c t out Hmiss IH. cbn [flat_map]. rewrite <- IH.
    unfold breakOrKeep at 1 3.
    destruct (N.eqb_spec c NEWLINE) as [->|Hc].
    + apply unescape_after_break.
    + cbn [app]. unfold unescapeCharacters.
      apply placeholderScan_miss. now apply firstMatching_after_convert.
Qed.

(** ** The scan of one delimiter *)

Lemma execLoop_chained (d : Delimiter) (input : jsstring) :
  forall fuel lastIndex ms,
    execLoop fuel d input lastIndex = Some ms -> chained lastIndex ms.
Proof.
  induction fuel as [|fuel IH]; intros lastIndex ms H; [discriminate|].
  rewrite execLoop_S in H.
  destruct (exec d input lastIndex) as [m|] eqn:E.
  - destruct (execLoop fuel d input (index m + length (match0 m)))
      as [ms'|] eqn:EL; [|discriminate].
    injection H as <-. apply exec_Some in E as (H1 & _).
    split; [exact H1|]. now apply (IH _ _ EL).
  - injection H as <-. exact I.
Qed.

(** X9: the candidates that one delimiter of the table contributes are in
    input order and never overlap one another: each lies inside the input,
    is not empty and starts at or after the end of the one before it. *)
Theorem delimiterMatches_disjoint (d : Delimiter) (input : jsstring) :
  In d delimiters ->
  StronglySorted (fun a b => m_end a <= m_start b) (delimiterMatches d input) /\
  Forall (fun m => m_start m < m_end m <= length input) (delimiterMatches d input).
Proof.
  intros Hd.
  pose proof (delimiterMatches_scanned d input Hd) as Hs.
  split.
  - apply (chained_sorted _ 0).
    + eapply Forall_impl; [|exact Hs]. apply scanned_wellFormed.
    + unfold delimiterMatches.
      destruct (execLoop (S (length input)) d input 0) as [ms|] eqn:E;
        [|exact I].
      now apply (execLoop_chained d input _ _ _ E).
  - eapply Forall_impl; [|exact Hs]. now intros m (H1 & H2 & _).
Qed.

Lemma delimiterMatches_disjoint_witness :
  let d := {| d_start := js "$"; d_end := js "$";
              d_type := inline_type; d_customRegex := false |} in
  In d delimiters /\
  StronglySorted (fun a b => m_end a <= m_start b)
                 (delimiterMatches d (js "$a$ $b$ $")) /\
  Forall (fun m => m_start m < m_end m <= length (js "$a$ $b$ $"))
         (delimiterMatches d (js "$a$ $b$ $")).
Proof.
  intros d.
  assert (H : In d delimiters) by (right; left; reflexivity).
  split; [exact H|].
  exact (delimiterMatches_disjoint d (js "$a$ $b$ $") H).
Defined.

Lemma search_finds (d : Delimiter) :
  forall s j pos,
    matchHere d (skipn j s) <> None -> search d s pos <> None.
Proof.
  induction s as [|c s IH]; intros j pos H; cbn [search].
  - rewrite skipn_nil in H. destruct (matchHere d []) as [[m0 m1]|];
      [discriminate|contradiction].
  - destruct (matchHere d (c :: s)) as [[m0 m1]|] eqn:E; [discriminate|].
    destruct j as [|j]; [cbn [skipn] in H; contradiction|].
    now apply (IH j).
Qed.

Lemma terminated_exec (d : Delimiter) (input : jsstring) :
  unterminated d input = false -> exec d input 0 <> None.
Proof.
  unfold unterminated. intros H.
  destruct (indexOf (d_start d) input) as [i|] eqn:EI; [|discriminate].
  destruct (indexOf (d_end d) (skipn (i + length (d_start d)) input))
    as [k|] eqn:EE; [|discriminate].
  unfold exec. cbn [Nat.ltb Nat.leb skipn].
  apply (search_finds d input i 0). unfold matchHere.
  apply indexOf_Some in EI as [EI _]. rewrite EI.
  rewrite skipn_skipn, (Nat.add_comm (length (d_start d)) i), EE.
  discriminate.
Qed.

Lemma terminated_candidate (d : Delimiter) (input : jsstring) :
  In d delimiters -> unterminated d input = false ->
  delimiterMatches d input <> [].
Proof.
  intros Hd E H.
  apply terminated_exec in E.
  unfold delimiterMatches in H. rewrite execLoop_S in H.
  destruct (exec d input 0) as [m|] eqn:Ex; [|contradiction].
  pose proof (exec_Some _ _ _ _ Ex) as (_ & H2 & H3 & _).
  pose proof (delimiters_nonEmpty d Hd) as Hne. unfold nonEmptyPattern in Hne.
  assert (Hlen : 0 < length (match0 m)) by (rewrite H3, !length_app; lia).
  destruct (length input) as [|n] eqn:En; [lia|].
  pose proof (execLoop_fuel d input Hne n (index m + length (match0 m))) as Hf.
  destruct (execLoop (S n) d input (index m + length (match0 m))) as [ms|].
  - discriminate H.
  - apply Hf; [lia|reflexivity].
Qed.

(** X10: a delimiter of the table contributes no candidate exactly when
    its start token is missing from the input or the first start token is
    not followed by the end token. *)
Theorem delimiterMatches_empty_iff (d : Delimiter) (input : jsstring) :
  In d delimiters ->
  (delimiterMatches d input = [] <-> unterminated d input = true).
Proof.
  intros Hd. split; [|apply unterminated_no_match].
  intros H. destruct (unterminated d input) eqn:E; [reflexivity|exfalso].
  now apply (terminated_candidate d input Hd E).
Qed.

Lemma delimiterMatches_empty_iff_witness :
  let d := {| d_start := js "\("; d_end := js "\)";
              d_type := inline_type; d_customRegex := false |} in
  In d delimiters /\
  (delimiterMatches d (js "mismatched \( delimiters \]") = [] <->
   unterminated d (js "mismatched \( delimiters \]") = true).
Proof.
  intros d.
  assert (H : In d delimiters) by (do 3 right; left; reflexivity).
  split; [exact H|].
  exact (delimiterMatches_empty_iff d (js "mismatched \( delimiters \]") H).
Defined.

(** ** The sweep discards only what overlaps *)

Lemma sweepFrom_rejected (l : list Match) (c : Match) :
  StronglySorted startThenLongest l ->
  forall cursor,
    In c l -> ~ In c (sweepFrom cursor l) ->
    m_start c < cursor \/
    exists a, In a (sweepFrom cursor l) /\ m_start a <= m_start c < m_end a.
Proof.
  intros Hs. induction Hs as [|x l Hs IH Hx]; intros cursor Hc Hout; [easy|].
  cbn [sweepFrom] in *. rewrite Forall_forall in Hx.
  destruct (Nat.leb_spec cursor (m_start x)) as [Hle|Hgt].
  - destruct Hc as [->|Hc]; [exfalso; apply Hout; now left|].
    right. destruct (IH (m_end x) Hc) as [Hlt|(a & Ha & Hin)].
    + intros H. apply Hout. now right.
    + exists x. split; [now left|].
      specialize (Hx _ Hc). unfold startThenLongest in Hx. lia.
    + exists a. split; [now right|exact Hin].
  - destruct Hc as [->|Hc]; [now left|]. now apply IH.
Qed.

(** X11: a candidate is discarded only because it starts inside an
    accepted span: every candidate that is not accepted starts at or after
    the start and before the end of some accepted match. *)
Theorem discarded_overlaps_accepted (input : jsstring) (c : Match) :
  In c (allRawMatches input) -> ~ In c (finalMatches input) ->
  exists a, In a (finalMatches input) /\ m_start a <= m_start c < m_end a.
Proof.
  unfold finalMatches. rewrite sweep_sweepFrom. intros Hc Hout.
  destruct (sweepFrom_rejected (sortMatches (allRawMatches input)) c) with (cursor := 0)
    as [Hlt|H]; auto; [| |lia].
  - apply sortMatches_sorted.
    eapply Forall_impl; [|apply allRawMatches_scanned].
    apply scanned_wellFormed.
  - now apply (Permutation_in _ (Permutation_sym (sortMatches_perm _))).
Qed.

Lemma discarded_overlaps_accepted_witness :
  let input := js "$$ a $b$ c $$" in
  let c := {| m_display := false; m_content := js "b";
              m_start := 5; m_end := 8 |} in
  In c (allRawMatches input) /\ ~ In c (finalMatches input) /\
  exists a, In a (finalMatches input) /\ m_start a <= m_start c < m_end a.
Proof.
  intros input c.
  assert (Hc : In c (allRawMatches input)) by (vm_compute; auto 6).
  assert (Hout : ~ In c (finalMatches input)).
  { intros H. vm_compute in H. destruct H as [H|[]]. discriminate H. }
  split; [exact Hc|]. split; [exact Hout|].
  exact (discarded_overlaps_accepted input c Hc Hout).
Defined.

(** ** The shape of the segment list *)

Lemma buildFrom_math (input : jsstring) (l : list Match) :
  forall prev, filter isMath (buildFrom input prev l) = map mathSegment l.
Proof.
  induction l as [|m l IH]; intros prev; cbn [buildFrom map].
  - destruct (prev <? length input); reflexivity.
  - rewrite filter_app. cbn [filter]. rewrite IH.
    destruct (prev <? m_start m); reflexivity.
Qed.

Lemma noAdjacentText_math (m : Match) (rest : list ParsedSegment) :
  noAdjacentText (mathSegment m :: rest) = noAdjacentText rest.
Proof. destruct rest; reflexivity. Qed.

Lemma buildFrom_noAdjacentText (input : jsstring) (l : list Match) :
  forall prev, noAdjacentText (buildFrom input prev l) = true.
Proof.
  induction l as [|m l IH]; intros prev; cbn [buildFrom].
  - destruct (prev <? length input); reflexivity.
  - destruct (prev <? m_start m); cbn [app].
    + change (noAdjacentText (mathSegment m :: buildFrom input (m_end m) l) = true).
      rewrite noAdjacentText_math. apply IH.
    + rewrite noAdjacentText_math. apply IH.
Qed.

Lemma parseDelimiters_math (input : jsstring) :
  filter isMath (parseDelimiters input) = map mathSegment (finalMatches input).
Proof.
  unfold parseDelimiters. rewrite buildSegments_buildFrom. apply buildFrom_math.
Qed.

(** X12: the math segments of the result are exactly the accepted matches,
    in order, each with the match's display flag and content, and no two
    text segments are adjacent. *)
Theorem parseDelimiters_shape (input : jsstring) :
  filter isMath (parseDelimiters input) = map mathSegment (finalMatches input) /\
  noAdjacentText (parseDelimiters input) = true.
Proof.
  split; [apply parseDelimiters_math|].
  unfold parseDelimiters. rewrite buildSegments_buildFrom.
  apply buildFrom_noAdjacentText.
Qed.

Lemma allRawMatches_unterminated (input : jsstring) :
  forallb (fun d => unterminated d input) delimiters = true ->
  allRawMatches input = [].
Proof.
  intros H. rewrite allRawMatches_flat_map. rewrite forallb_forall in H.
  induction delimiters as [|d ds IH]; [reflexivity|]. cbn [flat_map].
  rewrite (unterminated_no_match d input) by (apply H; now left).
  apply IH. intros x Hx. apply H. now right.
Qed.

Lemma parseDelimiters_no_match (input : jsstring) :
  allRawMatches input = [] ->
  parseDelimiters input = match input with [] => [] | _ => [textSegment input] end.
Proof.
  intros H. destruct input as [|c s]; [reflexivity|].
  apply parseDelimiters_no_candidate; [exact H|discriminate].
Qed.

(** X13: the result contains a math segment exactly when some delimiter of
    the table is terminated in the input. *)
Theorem math_segment_iff_terminated (input : jsstring) :
  existsb isMath (parseDelimiters input)
  = negb (forallb (fun d => unterminated d input) delimiters).
Proof.
  destruct (forallb (fun d => unterminated d input) delimiters) eqn:E.
  - rewrite (parseDelimiters_no_match input (allRawMatches_unterminated input E)).
    destruct input; reflexivity.
  - cbn [negb].
    assert (Hd : exists d, In d delimiters /\ unterminated d input = false).
    { destruct (forallb_forall (fun d => unterminated d input) delimiters) as [_ Hall].
      destruct (existsb (fun d => negb (unterminated d input)) delimiters) eqn:Ex.
      - apply existsb_exists in Ex as (d & Hd & Hn). exists d. split; [exact Hd|].
        now destruct (unterminated d input).
      - rewrite Hall in E; [discriminate|]. intros d Hd.
        destruct (unterminated d input) eqn:Eu; [reflexivity|].
        assert (Hex : existsb (fun d => negb (unterminated d input)) delimiters = true)
          by (apply existsb_exists; exists d; now rewrite Eu).
        congruence. }
    destruct Hd as (d & Hd & Hu).
    assert (Hraw : allRawMatches input <> []).
    { rewrite allRawMatches_flat_map. intros Hnil.
      destruct (delimiterMatches d input) as [|m ms] eqn:Em;
        [now apply (terminated_candidate d input Hd Hu)|].
      assert (Hin : In m (flat_map (fun d => delimiterMatches d input) delimiters)).
      { apply in_flat_map. exists d. split; [exact Hd|]. rewrite Em. now left. }
      now rewrite Hnil in Hin. }
    assert (Hfinal : finalMatches input <> []).
    { unfold finalMatches. rewrite sweep_sweepFrom.
      destruct (sortMatches (allRawMatches input)) as [|x l] eqn:Es.
      - exfalso. apply Hraw.
        pose proof (sortMatches_perm (allRawMatches input)) as Hp.
        rewrite Es in Hp. now apply Permutation_nil in Hp.
      - cbn [sweepFrom Nat.leb]. discriminate. }
    pose proof (parseDelimiters_math input) as Hshape.
    destruct (finalMatches input) as [|m ms]; [contradiction|].
    destruct (parseDelimiters input) as [|seg segs]; [discriminate Hshape|].
    apply existsb_exists.
    assert (Hin : In (mathSegment m) (filter isMath (seg :: segs)))
      by (rewrite Hshape; now left).
    apply filter_In in Hin as [Hin Hm]. eauto.
Qed.

(** ** What renderMath returns *)

Lemma isMath_type (seg : ParsedSegment) :
  isMath seg = match type seg with text => false | math => true end.
Proof. unfold isMath, isText. now destruct (type seg). Qed.

Lemma forEach_renderSegment_value (markupOf : jsstring -> bool -> jsstring) :
  forall segments out calls,
    forEach (renderSegment (fun c d => inl (markupOf c d))) segments out calls
    = OK (out ++ concat (map (renderedPiece markupOf) segments),
          calls ++ map engineCallOf (filter isMath segments)).
Proof.
  induction segments as [|seg segments IH]; intros out calls.
  - cbn. now rewrite !app_nil_r.
  - rewrite forEach_cons. cbn [map concat filter].
    rewrite isMath_type. unfold renderedPiece at 1.
    destruct (type seg) eqn:T.
    + rewrite render_text_segment by exact T. rewrite IH.
      now rewrite <- app_assoc.
    + rewrite (render_math_segment _ out seg calls
                 (markupOf (revertEscapedCharacters (content seg)) (display seg)))
        by (exact T || reflexivity).
      rewrite IH. unfold engineCallOf at 2. cbn [map app].
      now rewrite <- !app_assoc.
Qed.

(** X14: with an engine that returns [markupOf content displayMode],
    [renderMath] returns the concatenation, in order and without
    separators, of what each segment of the escaped input contributes, and
    it calls the engine once per math segment, in order, with the reverted
    content and the display flag of that segment. *)
Theorem renderMath_concatenates
        (markupOf : jsstring -> bool -> jsstring) (input : jsstring) :
  exists escaped,
    escapeInput (cleanInput input) [] = OK (escaped, []) /\
    renderMath (fun c d => inl (markupOf c d)) input []
    = OK (concat (map (renderedPiece markupOf) (parseDelimiters escaped)),
          map engineCallOf (filter isMath (parseDelimiters escaped))).
Proof.
  eexists. split; [apply escapeInput_value|].
  rewrite renderMath_unfold. apply forEach_renderSegment_value.
Qed.

Lemma forEach_renderSegment_origin
      (engine : jsstring -> bool -> jsstring + jsstring) :
  forall segments out calls e,
    forEach (renderSegment engine) segments out calls = Throw e ->
    exists before seg after payload,
      segments = before ++ seg :: after /\
      type seg = math /\
      engine (revertEscapedCharacters (content seg)) (display seg) = inr payload /\
      e = EngineException payload /\
      Forall (fun s => type s = math ->
                       exists markup,
                         engine (revertEscapedCharacters (content s)) (display s)
                         = inl markup) before.
Proof.
  induction segments as [|seg segments IH]; intros out calls e H; [discriminate|].
  rewrite forEach_cons in H. destruct (type seg) eqn:T.
  - rewrite render_text_segment in H by exact T.
    destruct (IH _ _ _ H) as (before & s & after & payload & -> & H1 & H2 & H3 & H4).
    exists (seg :: before), s, after, payload. repeat split; auto.
    constructor; [|exact H4]. intros Hm. congruence.
  - destruct (engine (revertEscapedCharacters (content seg)) (display seg))
      as [markup|payload] eqn:E.
    + rewrite (render_math_segment engine out seg calls markup T E) in H.
      destruct (IH _ _ _ H) as (before & s & after & p & -> & H1 & H2 & H3 & H4).
      exists (seg :: before), s, after, p. repeat split; auto.
      constructor; [|exact H4]. intros _. now exists markup.
    + unfold renderSegment, bind, callEngine in H. rewrite T, E in H.
      injection H as <-.
      exists [], seg, segments, payload. repeat split; auto.
Qed.

(** X15: when [renderMath] throws, the exception is the one the engine
    threw on the first math segment it failed on: the engine returned
    markup for every math segment before it, and nothing is returned for
    the segments already rendered. *)
Theorem renderMath_throw_origin
        (engine : jsstring -> bool -> jsstring + jsstring)
        (input : jsstring) (e : Exn) :
  renderMath engine input [] = Throw e ->
  exists escaped before seg after payload,
    escapeInput (cleanInput input) [] = OK (escaped, []) /\
    parseDelimiters escaped = before ++ seg :: after /\
    type seg = math /\
    engine (revertEscapedCharacters (content seg)) (display seg) = inr payload /\
    e = EngineException payload /\
    Forall (fun s => type s = math ->
                     exists markup,
                       engine (revertEscapedCharacters (content s)) (display s)
                       = inl markup) before.
Proof.
  intros H. rewrite renderMath_unfold in H.
  apply forEach_renderSegment_origin in H
    as (before & seg & after & payload & H0 & H1 & H2 & H3 & H4).
  eexists _, before, seg, after, payload.
  split; [apply escapeInput_value|]. repeat split; auto.
Qed.

Lemma renderMath_throw_origin_witness :
  renderMath mockRenderToString (js "Fine $x$, bad $a + \invalid$, $y$") []
  = Throw (EngineException (js "ParseError: KaTeX parse error: \invalid command")) /\
  exists escaped before seg after payload,
    escapeInput (cleanInput (js "Fine $x$, bad $a + \invalid$, $y$")) []
    = OK (escaped, []) /\
    parseDelimiters escaped = before ++ seg :: after /\
    type seg = math /\
    mockRenderToString (revertEscapedCharacters (content seg)) (display seg)
    = inr payload /\
    EngineException (js "ParseError: KaTeX parse error: \invalid command")
    = EngineException payload /\
    Forall (fun s => type s = math ->
                     exists markup,
                       mockRenderToString (revertEscapedCharacters (content s))
                                          (display s)
                       = inl markup) before.
Proof.
  assert (H : renderMath mockRenderToString
                (js "Fine $x$, bad $a + \invalid$, $y$") []
              = Throw (EngineException
                         (js "ParseError: KaTeX parse error: \invalid command")))
    by (vm_compute; reflexivity).
  split; [exact H|].
  exact (renderMath_throw_origin mockRenderToString _ _ H).
Defined.

(** ** Plain text *)

Lemma plain_units (s : jsstring) :
  forallb plainUnit s = true ->
  ~ In DOLLAR s /\ ~ In BACKSLASH s /\ ~ In NEWLINE s /\ ~ In PLACEHOLDER_LEAD s.
Proof.
  intros H. rewrite forallb_forall in H.
  repeat split; intros Hin; specialize (H _ Hin); discriminate H.
Qed.

Lemma convert_without_newline (s : jsstring) :
  ~ In NEWLINE s -> convertNewlinesToLatexBreaks s = s.
Proof.
  intros H. rewrite convertNewlines_flat_map.
  induction s as [|c s IH]; [reflexivity|].
  cbn [flat_map]. unfold breakOrKeep at 1.
  destruct (N.eqb_spec c NEWLINE) as [->|Hc]; [exfalso; apply H; now left|].
  cbn [app]. f_equal. apply IH. intros Hin. apply H. now right.
Qed.

Lemma unescape_without_lead (s : jsstring) :
  ~ In PLACEHOLDER_LEAD s -> unescapeCharacters s = s.
Proof.
  intros H. unfold unescapeCharacters. apply replaceGlobal_absent.
  - apply escapedSequences_nonEmpty.
  - repeat constructor; now apply indexOf_head_absent.
Qed.

Lemma delimiters_start_head (d : Delimiter) :
  In d delimiters ->
  exists c rest, d_start d = c :: rest /\ (c = DOLLAR \/ c = BACKSLASH).
Proof.
  intros H. cbn [delimiters In] in H.
  repeat (destruct H as [<-|H];
          [eexists _, _; split; [reflexivity|auto]|]).
  contradiction.
Qed.

(** X16: text without dollar sign, backslash, newline and placeholder code
    unit is returned by [renderMath] unchanged, and the engine is not
    called, whatever the engine is. *)
Theorem renderMath_plain_text
        (engine : jsstring -> bool -> jsstring + jsstring) (input : jsstring) :
  forallb plainUnit input = true ->
  renderMath engine input [] = OK (input, []).
Proof.
  intros H. apply plain_units in H as (Hd & Hb & Hn & Hl).
  rewrite renderMath_unfold.
  assert (Hclean : cleanInput input = input).
  { unfold cleanInput. apply replaceGlobal_absent.
    - apply escapedSequences_nonEmpty.
    - repeat constructor; now apply indexOf_head_absent. }
  rewrite Hclean.
  rewrite (replaceAll_absent input (js "\\"))
    by (discriminate || now apply indexOf_head_absent).
  rewrite (replaceAll_absent input (js "\$"))
    by (discriminate || now apply indexOf_head_absent).
  assert (Hraw : allRawMatches input = []).
  { apply allRawMatches_unterminated. apply forallb_forall. intros d Hin.
    destruct (delimiters_start_head d Hin) as (c & rest & Hs & Hc).
    unfold unterminated. rewrite Hs.
    rewrite indexOf_head_absent; [reflexivity|].
    destruct Hc as [->| ->]; assumption. }
  rewrite (parseDelimiters_no_match input Hraw).
  destruct input as [|c s]; [reflexivity|].
  rewrite forEach_cons, render_text_segment by reflexivity.
  cbn [forEach ret content textSegment app].
  rewrite (convert_without_newline (c :: s) Hn).
  now rewrite (unescape_without_lead (c :: s) Hl).
Qed.

Lemma renderMath_plain_text_witness :
  forallb plainUnit (js "Hello world, this is plain text.") = true /\
  renderMath mockRenderToString (js "Hello world, this is plain text.") []
  = OK (js "Hello world, this is plain text.", []).
Proof.
  assert (H : forallb plainUnit (js "Hello world, this is plain text.") = true)
    by (vm_compute; reflexivity).
  split; [exact H|].
  exact (renderMath_plain_text mockRenderToString _ H).
Defined.

(** ** The error relabelling *)

Lemma relabelScan_absent (s : jsstring) :
  indexOf KATEX_ERROR_PREFIX s = None ->
  forall before, relabelScan before 0 s = s.
Proof.
  induction s as [|c s IH]; intros H before; [reflexivity|].
  apply indexOf_None_cons in H as [Hhere Hrest].
  cbn [relabelScan]. unfold errorPrefixHere. rewrite Hhere.
  f_equal. now apply IH.
Qed.

(** X17: markup in which the engine's error prefix does not occur is
    returned by the relabelling unchanged. *)
Theorem relabel_without_prefix (markup : jsstring) :
  indexOf KATEX_ERROR_PREFIX markup = None ->
  relabelKatexError markup = markup.
Proof. intros H. unfold relabelKatexError. now apply relabelScan_absent. Qed.

Lemma relabel_without_prefix_witness :
  let markup := js "<span class=" ++ [QUOTE] ++ js "katex " ++ [QUOTE]
                ++ js ">x=5</span>" in
  indexOf KATEX_ERROR_PREFIX markup = None /\
  relabelKatexError markup = markup.
Proof.
  intros markup.
  assert (H : indexOf KATEX_ERROR_PREFIX markup = None)
    by (vm_compute; reflexivity).
  split; [exact H|].
  exact (relabel_without_prefix markup H).
Defined.

(** ** One inline formula between plain text *)

Lemma indexOf_app_absent (a : N) (tok pre t : jsstring) :
  ~ In a pre ->
  indexOf (a :: tok) (pre ++ t)
  = option_map (Nat.add (length pre)) (indexOf (a :: tok) t).
Proof.
  intros H. induction pre as [|c pre IH].
  - cbn [app length]. now destruct (indexOf (a :: tok) t).
  - cbn [app indexOf length].
    rewrite startsWith_head by (intros ->; apply H; now left).
    rewrite IH by (intros Hin; apply H; now right).
    now destruct (indexOf (a :: tok) t).
Qed.

Lemma search_skip (d : Delimiter) (a : N) (rest pre t : jsstring) :
  d_start d = a :: rest -> ~ In a pre ->
  forall pos, search d (pre ++ t) pos = search d t (pos + length pre).
Proof.
  intros Hs. induction pre as [|c pre IH]; intros H pos.
  - cbn [app length]. now rewrite Nat.add_0_r.
  - cbn [app search length]. unfold matchHere at 1. rewrite Hs.
    rewrite startsWith_head by (intros ->; apply H; now left).
    rewrite IH by (intros Hin; apply H; now right).
    f_equal. lia.
Qed.

Lemma firstn_app_exact (n : nat) (l t : jsstring) :
  n = length l -> firstn n (l ++ t) = l.
Proof.
  intros ->. rewrite <- (Nat.add_0_r (length l)), firstn_app_2.
  cbn [firstn]. apply app_nil_r.
Qed.

Lemma skipn_app_exact (n : nat) (l t : jsstring) :
  n = length l -> skipn n (l ++ t) = t.
Proof.
  intros ->. rewrite skipn_app, skipn_all, Nat.sub_diag. reflexivity.
Qed.

Lemma noDelimiterUnit_absent (s : jsstring) :
  forallb noDelimiterUnit s = true -> ~ In DOLLAR s /\ ~ In BACKSLASH s.
Proof.
  intros H. rewrite forallb_forall in H.
  split; intros Hin; specialize (H _ Hin); discriminate H.
Qed.

Lemma inlineInput_split (pre body post : jsstring) :
  inlineInput pre body post = (pre ++ DOLLAR :: body ++ [DOLLAR]) ++ post.
Proof.
  unfold inlineInput.
  now rewrite <- !app_assoc, <- app_comm_cons, <- app_assoc.
Qed.

Lemma inlineInput_length (pre body post : jsstring) :
  length (inlineInput pre body post)
  = m_end (inlineFound pre body) + length post.
Proof. rewrite inlineInput_split, !length_app. reflexivity. Qed.

Lemma inlineInput_after (pre body post : jsstring) :
  skipn (m_end (inlineFound pre body)) (inlineInput pre body post) = post.
Proof.
  rewrite inlineInput_split. apply skipn_app_exact.
  rewrite length_app. reflexivity.
Qed.

Lemma matchHere_inline (body post : jsstring) :
  ~ In DOLLAR body ->
  matchHere inlineDollar (DOLLAR :: body ++ DOLLAR :: post)
  = Some (DOLLAR :: body ++ [DOLLAR], body).
Proof.
  intros Hb.
  unfold matchHere. change (d_start inlineDollar) with [DOLLAR].
  change (d_end inlineDollar) with [DOLLAR].
  change (startsWith [DOLLAR] (DOLLAR :: body ++ DOLLAR :: post)) with true.
  cbn [length skipn]. cbv iota.
  rewrite (indexOf_app_absent DOLLAR [] body (DOLLAR :: post) Hb).
  change (indexOf [DOLLAR] (DOLLAR :: post)) with (Some 0).
  cbn [option_map]. rewrite Nat.add_0_r.
  rewrite (firstn_app_exact (length body) body) by reflexivity.
  change (1 + length body + 1) with (S (length body + 1)). cbn [firstn].
  replace (body ++ DOLLAR :: post) with ((body ++ [DOLLAR]) ++ post)
    by (now rewrite <- app_assoc).
  rewrite firstn_app_exact by (rewrite length_app; reflexivity).
  reflexivity.
Qed.

Lemma indexOf_cons (tok : jsstring) (c : N) (s : jsstring) :
  indexOf tok (c :: s)
  = if startsWith tok (c :: s) then Some 0 else option_map S (indexOf tok s).
Proof. reflexivity. Qed.

Lemma inline_scan (pre body post : jsstring) :
  ~ In DOLLAR pre -> ~ In DOLLAR body -> ~ In DOLLAR post ->
  delimiterMatches inlineDollar (inlineInput pre body post)
  = [inlineFound pre body].
Proof.
  intros Hpre Hbody Hpost.
  unfold delimiterMatches.
  assert (Hlen : exists f, length (inlineInput pre body post) = S f).
  { exists (length pre + length (body ++ [DOLLAR]) + length post).
    rewrite inlineInput_length. cbn [inlineFound m_end length]. lia. }
  destruct Hlen as [f ->].
  rewrite execLoop_S. unfold exec at 1. cbn [Nat.ltb Nat.leb skipn].
  unfold inlineInput at 1.
  rewrite (search_skip inlineDollar DOLLAR [] pre _ eq_refl Hpre).
  cbn [search]. rewrite (matchHere_inline body post Hbody).
  cbn [index match0 match1 Nat.add].
  rewrite execLoop_S.
  rewrite unterminated_exec; [reflexivity|].
  change (length pre + length (DOLLAR :: body ++ [DOLLAR]))
    with (m_end (inlineFound pre body)).
  rewrite inlineInput_after.
  unfold unterminated. change (d_start inlineDollar) with [DOLLAR].
  now rewrite indexOf_head_absent.
Qed.

Lemma display_scan (pre body post : jsstring) :
  ~ In DOLLAR pre -> ~ In DOLLAR body -> ~ In DOLLAR post ->
  delimiterMatches displayDollar (inlineInput pre body post) = [].
Proof.
  intros Hpre Hbody Hpost.
  assert (Hafter : indexOf [DOLLAR; DOLLAR] (DOLLAR :: post) = None).
  { cbn [indexOf]. rewrite (indexOf_head_absent DOLLAR [DOLLAR] post Hpost).
    destruct post as [|p post'].
    - reflexivity.
    - rewrite startsWith_second; [reflexivity|].
      intros ->. apply Hpost. now left. }
  apply unterminated_no_match. unfold unterminated.
  change (d_start displayDollar) with [DOLLAR; DOLLAR].
  change (d_end displayDollar) with [DOLLAR; DOLLAR].
  unfold inlineInput at 1.
  rewrite (indexOf_app_absent DOLLAR [DOLLAR] pre _ Hpre).
  destruct body as [|b body'].
  - change (indexOf [DOLLAR; DOLLAR] (DOLLAR :: [] ++ DOLLAR :: post))
      with (Some 0).
    cbn [option_map length].
    replace (skipn (length pre + 0 + 2) (inlineInput pre [] post)) with post.
    + now rewrite (indexOf_head_absent DOLLAR [DOLLAR] post Hpost).
    + symmetry. etransitivity; [|apply (inlineInput_after pre [] post)].
      f_equal. cbn [inlineFound m_end length app]. lia.
  - rewrite indexOf_cons. cbn [app].
    rewrite startsWith_second by (intros ->; apply Hbody; now left).
    change (b :: body' ++ DOLLAR :: post) with ((b :: body') ++ DOLLAR :: post).
    rewrite (indexOf_app_absent DOLLAR [DOLLAR] (b :: body') _ Hbody).
    now rewrite Hafter.
Qed.

Lemma backslash_scans (d : Delimiter) (input : jsstring) :
  In d delimiters -> d <> displayDollar -> d <> inlineDollar ->
  ~ In BACKSLASH input ->
  delimiterMatches d input = [].
Proof.
  intros Hin Hd1 Hd2 Hinput.
  apply unterminated_no_match. unfold unterminated.
  cbn [delimiters In] in Hin.
  destruct Hin as [<-|[<-|Hin]];
    [exfalso; apply Hd1; reflexivity|exfalso; apply Hd2; reflexivity|].
  assert (Hs : exists rest, d_start d = BACKSLASH :: rest).
  { repeat (destruct Hin as [<-|Hin]; [eexists; reflexivity|]).
    contradiction. }
  destruct Hs as [rest ->].
  now rewrite (indexOf_head_absent BACKSLASH rest input Hinput).
Qed.

Lemma inline_candidates (pre body post : jsstring) :
  forallb noDelimiterUnit pre = true ->
  forallb noDelimiterUnit body = true ->
  forallb noDelimiterUnit post = true ->
  allRawMatches (inlineInput pre body post) = [inlineFound pre body].
Proof.
  intros H1 H2 H3.
  destruct (noDelimiterUnit_absent pre H1) as [Hpre Bpre].
  destruct (noDelimiterUnit_absent body H2) as [Hbody Bbody].
  destruct (noDelimiterUnit_absent post H3) as [Hpost Bpost].
  assert (Hinput : ~ In BACKSLASH (inlineInput pre body post)).
  { unfold inlineInput. intros H. apply in_app_or in H as [H|[H|H]];
      [contradiction|discriminate|].
    apply in_app_or in H as [H|[H|H]];
      [contradiction|discriminate|contradiction]. }
  rewrite allRawMatches_flat_map. unfold delimiters.
  cbn [flat_map].
  fold displayDollar. fold inlineDollar.
  rewrite display_scan, inline_scan by assumption.
  rewrite !(fun d Hin Hd1 Hd2 =>
              backslash_scans d (inlineInput pre body post) Hin Hd1 Hd2 Hinput);
    try reflexivity; try discriminate;
    cbn [delimiters In]; auto 10.
Qed.

Lemma inline_parse (pre body post : jsstring) :
  forallb noDelimiterUnit pre = true ->
  forallb noDelimiterUnit body = true ->
  forallb noDelimiterUnit post = true ->
  parseDelimiters (inlineInput pre body post)
  = match pre with [] => [] | _ => [textSegment pre] end
    ++ {| type := math; display := false; content := body |}
    :: match post with [] => [] | _ => [textSegment post] end.
Proof.
  intros H1 H2 H3.
  unfold parseDelimiters, finalMatches.
  rewrite (inline_candidates pre body post H1 H2 H3).
  rewrite buildSegments_buildFrom.
  change (sweep (sortMatches [inlineFound pre body])) with [inlineFound pre body].
  cbn [buildFrom]. f_equal.
  - change (m_start (inlineFound pre body)) with (length pre).
    destruct pre as [|c pre'] eqn:Ep; [reflexivity|].
    cbn [length Nat.ltb Nat.leb]. f_equal. f_equal.
    rewrite substring_ordered
      by (try rewrite inlineInput_length; cbn [inlineFound m_end length]; lia).
    rewrite Nat.sub_0_r, skipn_O. unfold inlineInput.
    apply firstn_app_exact. reflexivity.
  - f_equal. rewrite inlineInput_length.
    destruct post as [|c post'] eqn:Ep.
    + cbn [length]. rewrite Nat.add_0_r, Nat.ltb_irrefl. reflexivity.
    + assert (Hlt : m_end (inlineFound pre body)
                    < m_end (inlineFound pre body) + length (c :: post'))
        by (cbn [length]; lia).
      apply Nat.ltb_lt in Hlt. rewrite Hlt. f_equal. f_equal.
      rewrite <- inlineInput_length.
      rewrite substring_ordered by (try rewrite inlineInput_length; lia).
      rewrite inlineInput_after.
      apply firstn_all2. rewrite inlineInput_length. lia.
Qed.

(** X18: one formula between single dollar signs, in a text that has no
    other dollar sign and no backslash, parses into the text before it (if
    any), one inline math segment whose content is the formula without the
    dollar signs, and the text after it (if any). *)
Theorem inline_formula_between_text (pre body post : jsstring) :
  forallb noDelimiterUnit pre = true ->
  forallb noDelimiterUnit body = true ->
  forallb noDelimiterUnit post = true ->
  parseDelimiters (pre ++ js "$" ++ body ++ js "$" ++ post)
  = match pre with [] => [] | _ => [textSegment pre] end
    ++ {| type := math; display := false; content := body |}
    :: match post with [] => [] | _ => [textSegment post] end.
Proof. intros H1 H2 H3. now apply (inline_parse pre body post). Qed.

Lemma inline_formula_between_text_witness :
  forallb noDelimiterUnit (js "An equation ") = true /\
  forallb noDelimiterUnit (js "E=mc^2") = true /\
  forallb noDelimiterUnit [] = true /\
  parseDelimiters (js "An equation " ++ js "$" ++ js "E=mc^2" ++ js "$" ++ [])
  = [ textSegment (js "An equation ");
      {| type := math; display := false; content := js "E=mc^2" |} ].
Proof.
  assert (H1 : forallb noDelimiterUnit (js "An equation ") = true)
    by (vm_compute; reflexivity).
  assert (H2 : forallb noDelimiterUnit (js "E=mc^2") = true)
    by (vm_compute; reflexivity).
  assert (H3 : forallb noDelimiterUnit [] = true) by reflexivity.
  split; [exact H1|]. split; [exact H2|]. split; [exact H3|].
  exact (inline_formula_between_text (js "An equation ") (js "E=mc^2") [] H1 H2 H3).
Defined.

(** ** The relabelling of an error markup *)

Lemma nullable_complete (r : Regex) (s : jsstring) :
  matches r s -> s = [] -> nullable r = true.
Proof.
  induction 1 as [|p c Hp|r1 r2 s1 s2 H1 IH1 H2 IH2|r1 r2 s H IH|r1 r2 s H IH
                  |r|r s1 s2 H1 IH1 H2 IH2]; intros E; cbn [nullable]; auto.
  - discriminate.
  - apply app_eq_nil in E as [-> ->]. now rewrite IH1, IH2.
  - now rewrite IH.
  - rewrite IH by exact E. apply orb_true_r.
Qed.

Lemma deriv_complete (r : Regex) (w : jsstring) :
  matches r w ->
  forall c s, w = c :: s -> matches (deriv c r) s.
Proof.
  induction 1 as [|p x Hp|r1 r2 s1 s2 H1 IH1 H2 IH2|r1 r2 w H IH|r1 r2 w H IH
                  |r|r s1 s2 H1 IH1 H2 IH2]; intros c s E; cbn [deriv].
  - discriminate.
  - injection E as -> <-. rewrite Hp. constructor.
  - destruct s1 as [|c1 s1'].
    + cbn [app] in E. rewrite (nullable_complete r1 [] H1 eq_refl).
      apply matches_alt_r. now apply IH2.
    + cbn [app] in E. injection E as -> <-.
      assert (Hcat : matches (Cat (deriv c r1) r2) (s1' ++ s2))
        by (constructor; [now apply IH1|exact H2]).
      destruct (nullable r1); [now apply matches_alt_l|exact Hcat].
  - apply matches_alt_l. now apply IH.
  - apply matches_alt_r. now apply IH.
  - discriminate.
  - destruct s1 as [|c1 s1'].
    + cbn [app] in E. now apply IH2.
    + cbn [app] in E. injection E as -> <-.
      constructor; [now apply IH1|exact H2].
Qed.

(** The matcher accepts every text that begins with a word of the pattern. *)
Lemma matchesPrefix_complete (p t : jsstring) :
  forall r, matches r p -> matchesPrefix r (p ++ t) = true.
Proof.
  induction p as [|c p IH]; intros r H.
  - cbn [app]. pose proof (nullable_complete r [] H eq_refl) as Hn.
    destruct t; cbn [matchesPrefix]; now rewrite Hn.
  - cbn [app matchesPrefix]. destruct (nullable r); [reflexivity|].
    apply IH. now apply (deriv_complete r (c :: p)).
Qed.

Lemma matches_star_snoc (r : Regex) (a b : jsstring) :
  matches (Star r) a -> matches r b -> matches (Star r) (a ++ b).
Proof.
  intros Ha Hb. remember (Star r) as sr eqn:E.
  induction Ha as [| | | | |r'|r' s1 s2 H1 _ H2 IH2]; try discriminate.
  - injection E as ->. cbn [app]. rewrite <- (app_nil_r b).
    constructor; [exact Hb|constructor].
  - injection E as ->. rewrite <- app_assoc.
    constructor; [exact H1|]. now apply IH2.
Qed.

Lemma matches_mirror (r : Regex) (s : jsstring) :
  matches r s -> matches (mirror r) (rev s).
Proof.
  induction 1 as [|p c Hp|r1 r2 s1 s2 H1 IH1 H2 IH2|r1 r2 s H IH|r1 r2 s H IH
                  |r|r s1 s2 H1 IH1 H2 IH2]; cbn [mirror rev app].
  - constructor.
  - now constructor.
  - rewrite rev_app_distr. now constructor.
  - now apply matches_alt_l.
  - now apply matches_alt_r.
  - constructor.
  - rewrite rev_app_distr. now apply matches_star_snoc.
Qed.

Lemma matches_lit (s : jsstring) : matches (lit s) s.
Proof.
  induction s as [|c s IH]; cbn [lit]; [constructor|].
  change (c :: s) with ([c] ++ s). constructor; [|exact IH].
  constructor. apply N.eqb_refl.
Qed.

Lemma matches_star_notChar (x : N) (s : jsstring) :
  ~ In x s -> matches (Star (Class (notChar x))) s.
Proof.
  induction s as [|c s IH]; intros H; [constructor|].
  change (c :: s) with ([c] ++ s). constructor.
  - constructor. unfold notChar.
    destruct (N.eqb_spec c x) as [->|Hc]; [exfalso; apply H; now left|reflexivity].
  - apply IH. intros Hin. apply H. now right.
Qed.

Lemma lookbehind_header : matches lookbehindPattern ERROR_HEADER.
Proof.
  unfold lookbehindPattern.
  change ERROR_HEADER
    with (js "<span" ++ [] ++ (js " " ++ [])
          ++ (js "class=" ++ [QUOTE] ++ js "katex-error" ++ [QUOTE])
          ++ [] ++ (js " " ++ []) ++ (js "title=" ++ [QUOTE])).
  repeat first
    [ apply matches_lit
    | apply matches_star_nil
    | apply matches_class; reflexivity
    | apply matches_cat ].
Qed.

Lemma lookahead_attribute (msg attrs : jsstring) :
  ~ In QUOTE msg -> ~ In GREATER attrs ->
  matches lookaheadPattern (msg ++ [QUOTE] ++ attrs ++ [GREATER]).
Proof.
  intros Hm Ha. unfold lookaheadPattern.
  repeat (apply matches_cat).
  - now apply matches_star_notChar.
  - constructor. reflexivity.
  - now apply matches_star_notChar.
  - constructor. reflexivity.
Qed.

Lemma relabelScan_pass (pre s : jsstring) :
  ~ In 80%N pre ->
  forall before,
    relabelScan before 0 (pre ++ s)
    = pre ++ relabelScan (rev pre ++ before) 0 s.
Proof.
  induction pre as [|c pre IH]; intros H before; [reflexivity|].
  cbn [app relabelScan]. unfold errorPrefixHere.
  change KATEX_ERROR_PREFIX with (80%N :: tl KATEX_ERROR_PREFIX) at 1.
  rewrite startsWith_head by (intros ->; apply H; now left).
  f_equal. rewrite IH by (intros Hin; apply H; now right).
  cbn [rev]. now rewrite <- app_assoc.
Qed.

Lemma relabelScan_cons (before : jsstring) (c : N) (s : jsstring) :
  relabelScan before 0 (c :: s)
  = if errorPrefixHere before (c :: s)
    then LATEX_ERROR_LABEL
         ++ relabelScan (c :: before) (length KATEX_ERROR_PREFIX - 1) s
    else c :: relabelScan (c :: before) 0 s.
Proof. reflexivity. Qed.

Lemma relabelScan_skip (s : jsstring) :
  forall k before,
    relabelScan before k s
    = relabelScan (rev (firstn k s) ++ before) 0 (skipn k s).
Proof.
  induction s as [|c s IH]; intros k before.
  - now rewrite firstn_nil, skipn_nil.
  - destruct k as [|k]; [reflexivity|].
    cbn [relabelScan firstn skipn rev]. rewrite IH.
    now rewrite <- app_assoc.
Qed.

Lemma relabelScan_hit (before tail : jsstring) :
  errorPrefixHere before (80%N :: tl KATEX_ERROR_PREFIX ++ tail) = true ->
  relabelScan before 0 (80%N :: tl KATEX_ERROR_PREFIX ++ tail)
  = LATEX_ERROR_LABEL
    ++ relabelScan (rev (tl KATEX_ERROR_PREFIX) ++ 80%N :: before) 0 tail.
Proof.
  intros H. rewrite relabelScan_cons, H.
  apply (f_equal (app LATEX_ERROR_LABEL)).
  rewrite relabelScan_skip.
  change (length KATEX_ERROR_PREFIX - 1) with (length (tl KATEX_ERROR_PREFIX)).
  now rewrite firstn_app_exact, skipn_app_exact by reflexivity.
Qed.

(** X19: an error markup as the engine emits it (the error span whose
    title begins with the engine's parse-error prefix) comes back with the
    prefix replaced by the label [LaTeX Error:] and everything else
    unchanged, provided the prefix does not occur a second time. *)
Theorem relabel_error_markup (msg attrs rest : jsstring) :
  ~ In QUOTE msg -> ~ In GREATER attrs ->
  indexOf KATEX_ERROR_PREFIX (msg ++ [QUOTE] ++ attrs ++ [GREATER] ++ rest) = None ->
  relabelKatexError
    (ERROR_HEADER ++ KATEX_ERROR_PREFIX
     ++ msg ++ [QUOTE] ++ attrs ++ [GREATER] ++ rest)
  = ERROR_HEADER ++ LATEX_ERROR_LABEL
    ++ msg ++ [QUOTE] ++ attrs ++ [GREATER] ++ rest.
Proof.
  intros Hm Ha Hno. unfold relabelKatexError.
  set (tail := msg ++ [QUOTE] ++ attrs ++ [GREATER] ++ rest) in *.
  rewrite relabelScan_pass.
  2:{ intros H. vm_compute in H.
      repeat (destruct H as [H|H]; [discriminate H|]). exact H. }
  f_equal.
  change (KATEX_ERROR_PREFIX ++ tail)
    with (80%N :: tl KATEX_ERROR_PREFIX ++ tail).
  rewrite relabelScan_hit.
  - f_equal. now apply relabelScan_absent.
  - unfold errorPrefixHere.
    change (80%N :: tl KATEX_ERROR_PREFIX ++ tail)
      with (KATEX_ERROR_PREFIX ++ tail).
    rewrite startsWith_app.
    rewrite (matchesPrefix_complete (rev ERROR_HEADER) [])
      by (apply matches_mirror, lookbehind_header).
    rewrite skipn_app_exact by reflexivity.
    unfold tail.
    replace (msg ++ [QUOTE] ++ attrs ++ [GREATER] ++ rest)
      with ((msg ++ [QUOTE] ++ attrs ++ [GREATER]) ++ rest)
      by (now rewrite <- !app_assoc).
    apply matchesPrefix_complete. now apply lookahead_attribute.
Qed.

Lemma relabel_error_markup_witness :
  ~ In QUOTE (js " something") /\ ~ In GREATER [] /\
  indexOf KATEX_ERROR_PREFIX
    (js " something" ++ [QUOTE] ++ [] ++ [GREATER] ++ js "Error</span>") = None /\
  relabelKatexError
    (ERROR_HEADER ++ KATEX_ERROR_PREFIX
     ++ js " something" ++ [QUOTE] ++ [] ++ [GREATER] ++ js "Error</span>")
  = ERROR_HEADER ++ LATEX_ERROR_LABEL
    ++ js " something" ++ [QUOTE] ++ [] ++ [GREATER] ++ js "Error</span>".
Proof.
  assert (H1 : ~ In QUOTE (js " something")).
  { intros H. vm_compute in H.
    repeat (destruct H as [H|H]; [discriminate H|]). exact H. }
  assert (H2 : ~ In GREATER []) by (intros []).
  assert (H3 : indexOf KATEX_ERROR_PREFIX
                 (js " something" ++ [QUOTE] ++ [] ++ [GREATER]
                  ++ js "Error</span>") = None)
    by (vm_compute; reflexivity).
  split; [exact H1|]. split; [exact H2|]. split; [exact H3|].
  exact (relabel_error_markup (js " something") [] (js "Error</span>") H1 H2 H3).
Defined.
